(** * ReAct agent (flow/agent/react): a shallow embedding and its properties

    The development follows [react.go]: the conversation state, the stream
    tool-call checkers, the state pre-handlers of the model and tools nodes,
    the branch conditions, the direct-return conversion and the graph that
    [NewAgent] assembles.  The graph engine, the message concatenation and the
    stream-to-message conversion belong to packages that are not part of the
    sources at hand; they are modelled from the specification and marked so.
    The tutorial's listings ([claudeStyleToolCallChecker], [concatToolCalls])
    are embedded as they are written. *)

From Stdlib Require Import ZArith Lia.
From stdpp Require Import base option list strings gmap sets sorting.

(** ** Results of fallible Go functions: a value or an error *)

Inductive result (E A : Type) : Type :=
| Ok (a : A)
| Err (e : E).
Arguments Ok {E A} a.
Arguments Err {E A} e.

#[global] Instance result_ret {E} : MRet (result E) := λ A a, Ok a.
#[global] Instance result_bind {E} : MBind (result E) :=
  λ A B f m, match m with Ok a => f a | Err e => Err e end.

(** Go [error] values: the sentinel of the schema package, a run-time panic
    caught as a failure, and the errors of the collaborators (model, tool,
    stream read, registration), told apart by their text. *)
Inductive error : Type :=
| ErrNoValue                (* schema.ErrNoValue *)
| ErrPanic                  (* a Go run-time panic inside a handler *)
| ErrOther (msg : string).

(** ** Package schema: messages, tool calls, streams *)

Module schema.

Inductive RoleType : Type := Assistant | User | System | Tool.

Record FunctionCall : Type := mkFunctionCall {
  Name : string;
  Arguments : string
}.

(** [Index] is Go's [*int]: [None] is the nil pointer. *)
Record ToolCall : Type := mkToolCall {
  Index : option Z;
  ID : string;
  Type_ : string;
  Function : FunctionCall
}.

Record Message : Type := mkMessage {
  Role : RoleType;
  Content : string;
  ToolCalls : list ToolCall;
  ToolCallID : string
}.

(** [*schema.Message]: [None] is the nil pointer. *)
Abbreviation MessagePtr := (option Message).

(** What one [Recv] on a stream yields; the exhausted list is [io.EOF]. *)
Inductive recv : Type :=
| Chunk (msg : Message)
| RecvErr (e : error).

Abbreviation StreamReader := (list recv).

Definition SystemMessage (content : string) : Message :=
  {| Role := System; Content := content; ToolCalls := []; ToolCallID := "" |}.

End schema.
Export schema.

#[global] Instance RoleType_eq_dec : EqDecision RoleType.
Proof. solve_decision. Defined.
#[global] Instance FunctionCall_eq_dec : EqDecision FunctionCall.
Proof. solve_decision. Defined.
#[global] Instance ToolCall_eq_dec : EqDecision ToolCall.
Proof. solve_decision. Defined.
#[global] Instance Message_eq_dec : EqDecision Message.
Proof. solve_decision. Defined.

(** Go's [len(s) == 0] on a string. *)
Definition str_empty (s : string) : bool :=
  match s with EmptyString => true | String _ _ => false end.

(** ** Package react *)

(** [type state struct] *)
Record state : Type := mkState {
  Messages : list MessagePtr;
  ReturnDirectlyToolCallID : string
}.

(** [firstChunkStreamToolCallChecker]: the default checker.  The loop reads one
    item per iteration; [defer sr.Close()] releases the rest. *)
Fixpoint firstChunkStreamToolCallChecker (sr : StreamReader) : result error bool :=
  match sr with
  | [] => Ok false                                   (* err == io.EOF *)
  | RecvErr e :: _ => Err e                          (* err != nil *)
  | Chunk msg :: rest =>
      if bool_decide (0 < length (ToolCalls msg)) then Ok true
      else if str_empty (Content msg) then firstChunkStreamToolCallChecker rest
      else Ok false
  end.

(** [getReturnDirectlyToolCallID]: the range loop over [input.ToolCalls]
    written as a recursion, after the guard on the empty map. *)
Fixpoint scanToolCalls (toolReturnDirectly : gset string) (calls : list ToolCall) : string :=
  match calls with
  | [] => ""
  | toolCall :: rest =>
      if bool_decide (Name (Function toolCall) ∈ toolReturnDirectly) then ID toolCall
      else scanToolCalls toolReturnDirectly rest
  end.

Definition getReturnDirectlyToolCallID (input : Message) (toolReturnDirectly : gset string) : string :=
  if bool_decide (size toolReturnDirectly = 0) then ""
  else scanToolCalls toolReturnDirectly (ToolCalls input).

(** [toolsNodePreHandle].  The handler's Go error is always nil; [None] is the
    run-time panic of indexing [state.Messages] at [len-1] when it is empty. *)
Definition toolsNodePreHandle (toolReturnDirectly : gset string)
    (input : MessagePtr) (st : state) : option (MessagePtr * state) :=
  match input with
  | None =>
      match length (Messages st) with
      | 0 => None
      | S n => msg ← Messages st !! n; Some (msg, st)
      end
  | Some m =>
      Some (input,
            {| Messages := Messages st ++ [input];
               ReturnDirectlyToolCallID := getReturnDirectlyToolCallID m toolReturnDirectly |})
  end.

(** The conversion inside [directReturn]: the first non-nil message of the
    batch whose [ToolCallID] is the state's marker, or [schema.ErrNoValue]. *)
Fixpoint directReturn_find (marker : string) (msgs : list MessagePtr) : MessagePtr :=
  match msgs with
  | [] => None
  | Some m :: rest =>
      if bool_decide (ToolCallID m = marker) then Some m else directReturn_find marker rest
  | None :: rest => directReturn_find marker rest
  end.

Definition directReturn (msgs : list MessagePtr) (st : state) : result error Message :=
  match directReturn_find (ReturnDirectlyToolCallID st) msgs with
  | None => Err ErrNoValue
  | Some msg => Ok msg
  end.

(** [schema.StreamReaderWithConvert], which the sources only call, after the
    library's contract: the reader it returns applies [convert] to each item
    as it is read; [schema.ErrNoValue] is the way for [convert] to leave an
    item out, the reader passes over it and goes on to the next one.  Any
    other error is what that read returns.  The items are the batches of the
    tools node, a stream that is taken to be read without error. *)
Fixpoint StreamReaderWithConvert {T : Type} (sr : list T)
    (convert : T → result error Message) : StreamReader :=
  match sr with
  | [] => []
  | item :: rest =>
      match convert item with
      | Ok msg => Chunk msg :: StreamReaderWithConvert rest convert
      | Err ErrNoValue => StreamReaderWithConvert rest convert
      | Err err => RecvErr err :: StreamReaderWithConvert rest convert
      end
  end.

(** The function [directReturn] of [buildReturnDirectly] itself, on the stream
    of batches the tools node emits: it wraps the stream and returns the new
    reader together with a nil error. *)
Definition directReturnStream (msgs : list (list MessagePtr)) (st : state)
    : result error StreamReader :=
  Ok (StreamReaderWithConvert msgs (λ msgs, directReturn msgs st)).

(** ** Merging streamed tool calls (the tutorial's [concatToolCalls]) *)

Definition setID (tc : ToolCall) (v : string) : ToolCall :=
  {| Index := Index tc; ID := v; Type_ := Type_ tc; Function := Function tc |}.
Definition setType (tc : ToolCall) (v : string) : ToolCall :=
  {| Index := Index tc; ID := ID tc; Type_ := v; Function := Function tc |}.
Definition setName (tc : ToolCall) (v : string) : ToolCall :=
  {| Index := Index tc; ID := ID tc; Type_ := Type_ tc;
     Function := {| Name := v; Arguments := Arguments (Function tc) |} |}.
Definition setArguments (tc : ToolCall) (v : string) : ToolCall :=
  {| Index := Index tc; ID := ID tc; Type_ := Type_ tc;
     Function := {| Name := Name (Function tc); Arguments := v |} |}.

(** First loop: chunks without [Index] go to [merged] as they are, the
    positions of the others are collected per index in [indexGroups]. *)
Fixpoint groupChunks (i : nat) (chunks : list ToolCall)
    (merged : list ToolCall) (indexGroups : gmap Z (list nat))
    : list ToolCall * gmap Z (list nat) :=
  match chunks with
  | [] => (merged, indexGroups)
  | chunk :: rest =>
      match Index chunk with
      | None => groupChunks (S i) rest (merged ++ [chunk]) indexGroups
      | Some k =>
          groupChunks (S i) rest merged
            (<[k := default [] (indexGroups !! k) ++ [i]]> indexGroups)
      end
  end.

(** The body of the inner loop of the second pass: one chunk of a group. *)
Definition mergeChunk (res : ToolCall) (argsBuilder : string) (chunk : ToolCall)
    : ToolCall * string :=
  let res := if str_empty (ID chunk) then res else setID res (ID chunk) in
  let res := if str_empty (Type_ chunk) then res else setType res (Type_ chunk) in
  let res := if str_empty (Name (Function chunk)) then res
             else setName res (Name (Function chunk)) in
  let argsBuilder := if str_empty (Arguments (Function chunk)) then argsBuilder
                     else argsBuilder +:+ Arguments (Function chunk) in
  (res, argsBuilder).

(** Inner loop of the second pass, over the positions of one group.  [None] is
    the panic of [chunks[chunkIdx]] out of range. *)
Fixpoint mergeGroup (chunks : list ToolCall) (chunkIndices : list nat)
    (res : ToolCall) (argsBuilder : string) : option ToolCall :=
  match chunkIndices with
  | [] => Some (setArguments res argsBuilder)
  | chunkIdx :: rest =>
      chunk ← chunks !! chunkIdx;
      let '(res, argsBuilder) := mergeChunk res argsBuilder chunk in
      mergeGroup chunks rest res argsBuilder
  end.

(** [Index: &index] stores the address of the range variable [index], not its
    value.  Before Go 1.22 a [for ... range] statement has one such variable
    for all its iterations, so the entries of the second pass share one cell:
    whatever is assigned to the variable shows through each of them. *)
Definition setIndex (tc : ToolCall) (v : option Z) : ToolCall :=
  {| Index := v; ID := ID tc; Type_ := Type_ tc; Function := Function tc |}.

(** Outer loop of the second pass, over the entries of the map in the order
    the map yields them (Go leaves that order unspecified).  The slice
    [merged] is kept in two parts: the chunks the first pass put there, whose
    [Index] pointers are their own, and [appended], the entries of the second
    pass, which hold [&index].  Each iteration begins by assigning the next
    key to the range variable. *)
Fixpoint mergeGroups (chunks : list ToolCall) (groups : list (Z * list nat))
    (merged appended : list ToolCall) : option (list ToolCall) :=
  match groups with
  | [] => Some (merged ++ appended)
  | (index, chunkIndices) :: rest =>
      let appended := (λ tc, setIndex tc (Some index)) <$> appended in
      res ← mergeGroup chunks chunkIndices
              {| Index := Some index; ID := ""; Type_ := "";
                 Function := {| Name := ""; Arguments := "" |} |} "";
      mergeGroups chunks rest merged (appended ++ [res])
  end.

Definition concatToolCalls (chunks : list ToolCall) : option (list ToolCall) :=
  let '(merged, indexGroups) := groupChunks 0 chunks [] ∅ in
  mergeGroups chunks (map_to_list indexGroups) merged [].

(** The receive loop shared by the full-consume checker and the engine: every
    fragment up to [io.EOF], or the first read error. *)
Fixpoint recvAll (sr : StreamReader) : result error (list Message) :=
  match sr with
  | [] => Ok []
  | RecvErr e :: _ => Err e
  | Chunk msg :: rest => all ← recvAll rest; Ok (msg :: all)
  end.

(** The tutorial's [claudeStyleToolCallChecker] (full-consume policy).  It
    calls [schema.ConcatMessages], a function of the library that is not among
    the sources: the checker is given it as [ConcatMessages]. *)
Definition claudeStyleToolCallChecker
    (ConcatMessages : list Message → result error Message)
    (sr : StreamReader) : result error bool :=
  allMessages ← recvAll sr;
  if bool_decide (0 < length allMessages) then
    combined ← ConcatMessages allMessages;
    Ok (bool_decide (0 < length (ToolCalls combined)))
  else Ok false.

(** ** Concatenating the fragments of a message *)

(** The first non-empty value of a sequence of strings. *)
Fixpoint firstNonEmpty (l : list string) : string :=
  match l with
  | [] => ""
  | s :: rest => if str_empty s then firstNonEmpty rest else s
  end.

(** Modelled from the spec: the value a field of a merged request takes, the
    first non-empty one seen.  Fragments that disagree on a non-empty value
    cannot be one request and are refused. *)
Definition agreed (l : list string) : result error string :=
  let v := firstNonEmpty l in
  if forallb (λ s, str_empty s || String.eqb s v) l then Ok v
  else Err (ErrOther "cannot concat tool calls with different values").

(** Modelled from the spec: the request merged from the fragments of sequence
    index [k], their argument fragments concatenated in arrival order. *)
Definition concatIndex (k : Z) (calls : list ToolCall) : result error ToolCall :=
  let frs := filter (λ c, Index c = Some k) calls in
  id ← agreed (ID <$> frs);
  ty ← agreed (Type_ <$> frs);
  name ← agreed ((λ c, Name (Function c)) <$> frs);
  Ok {| Index := Some k; ID := id; Type_ := ty;
        Function := {| Name := name;
                       Arguments := String.concat ""
                                      ((λ c, Arguments (Function c)) <$> frs) |} |}.

(** Modelled from the spec: the merged requests of the indices [ks]. *)
Fixpoint concatIndices (ks : list Z) (calls : list ToolCall)
    : result error (list ToolCall) :=
  match ks with
  | [] => Ok []
  | k :: rest =>
      tc ← concatIndex k calls;
      tcs ← concatIndices rest calls;
      Ok (tc :: tcs)
  end.

(** Modelled from the spec: [schema.ConcatMessages], which the sources only
    call.  The textual content is concatenated in order; the tool-call
    requests are merged by matching the per-fragment sequence index.
    Requests without an index are kept as they are, ahead of the merged ones,
    which come in ascending order of their index.  Role and [ToolCallID] are
    those of the first fragment. *)
Definition ConcatMessages (msgs : list Message) : result error Message :=
  match msgs with
  | [] => Err (ErrOther "no messages to concat")
  | first :: _ =>
      let calls := mjoin (ToolCalls <$> msgs) in
      let ks := merge_sort Z.le (remove_dups (omap Index calls)) in
      merged ← concatIndices ks calls;
      Ok {| Role := Role first;
            Content := String.concat "" (Content <$> msgs);
            ToolCalls := filter (λ c, Index c = None) calls ++ merged;
            ToolCallID := ToolCallID first |}
  end.

(** ** Package compose: the graph engine

    Modelled from the spec: the scheduling engine, which the sources only
    call.  It registers named stages with a pre-processing hook bound to the
    per-run state, wires unconditional and conditional edges by name, compiles
    the graph into an executable bounded by a maximum step count, and runs the
    stages strictly one at a time in the order the branch decisions dictate.
    Registration and wiring are taken to succeed. *)

Module compose.

Definition START : string := "start".
Definition END : string := "end".

(** Modelled from the spec: the values that travel along the edges of the
    agent's graph. *)
Inductive Val : Type :=
| VMsgs (msgs : list MessagePtr)    (* []*schema.Message *)
| VStream (sr : StreamReader)       (* the output of a model turn *)
| VMsg (msg : MessagePtr).          (* *schema.Message *)

(** Modelled from the spec: how a run fails.  The step bound, or the failure
    of a stage or of a branch decision, reported with the key of the stage it
    comes from. *)
Inductive run_error : Type :=
| ErrExceedMaxSteps
| ErrNodeRun (key : string) (e : error)
| ErrBranchRun (key : string) (e : error)
| ErrBranchTarget (key next : string)
| ErrNoSuccessor (key : string)
| ErrUnknownNode (key : string)
| ErrStateInit.

(** Modelled from the spec: one executed stage, with its key, what it
    received and what it produced. *)
Record TraceEntry : Type := mkEntry {
  te_node : string;
  te_in : Val;
  te_out : Val
}.

(** The first entry registered under [key]. *)
Fixpoint assoc {A} (key : string) (l : list (string * A)) : option A :=
  match l with
  | [] => None
  | (k, a) :: rest => if String.eqb k key then Some a else assoc key rest
  end.

Section engine.
Context {S : Type}.

(** Modelled from the spec: a stage.  The index of the step it runs at, its input and the state give
    its output and the new state. *)
Definition NodeImpl : Type := nat → Val → S → result error (Val * S).

(** Modelled from the spec: a conditional edge, with the stages it may lead
    to, and a graph of named stages, edges and conditional edges. *)
Record GraphBranch : Type := mkBranch {
  condition : Val → S → result error string;
  endNodes : list string
}.

Record Graph : Type := mkGraph {
  nodes : list (string * NodeImpl);
  edges : list (string * string);
  branches : list (string * GraphBranch)
}.

Definition NewGraph : Graph := {| nodes := []; edges := []; branches := [] |}.

Definition AddNode (g : Graph) (key : string) (n : NodeImpl) : Graph :=
  {| nodes := nodes g ++ [(key, n)]; edges := edges g; branches := branches g |}.
Definition AddEdge (g : Graph) (startNode endNode : string) : Graph :=
  {| nodes := nodes g; edges := edges g ++ [(startNode, endNode)]; branches := branches g |}.
Definition AddBranch (g : Graph) (startNode : string) (b : GraphBranch) : Graph :=
  {| nodes := nodes g; edges := edges g; branches := branches g ++ [(startNode, b)] |}.

(** Modelled from the spec: the stage that follows [key] is what its branch
    decides, else where its edge leads. *)
Definition successor (g : Graph) (key : string) (out : Val) (st : S) : result run_error string :=
  match assoc key (branches g) with
  | Some b =>
      match condition b out st with
      | Err e => Err (ErrBranchRun key e)
      | Ok next =>
          if existsb (String.eqb next) (endNodes b) then Ok next
          else Err (ErrBranchTarget key next)
      end
  | None =>
      match assoc key (edges g) with
      | Some next => Ok next
      | None => Err (ErrNoSuccessor key)
      end
  end.

(** Modelled from the spec: the run loop.  [fuel] is the number of stages that may still execute;
    reaching [END] ends the run with the value that arrived there, and a stage
    that is due when no step is left fails the run with the step-bound error.
    The second component lists the stages executed, in order. *)
Fixpoint runSteps (g : Graph) (fuel step : nat) (key : string) (v : Val) (st : S)
    : result run_error Val * list TraceEntry :=
  if String.eqb key END then (Ok v, [])
  else
    match fuel with
    | 0 => (Err ErrExceedMaxSteps, [])
    | Datatypes.S fuel' =>
        match assoc key (nodes g) with
        | None => (Err (ErrUnknownNode key), [])
        | Some n =>
            match n step v st with
            | Err e => (Err (ErrNodeRun key e), [])
            | Ok (out, st') =>
                match successor g key out st' with
                | Err e => (Err e, [mkEntry key v out])
                | Ok next =>
                    let '(r, tr) := runSteps g fuel' (Datatypes.S step) next out st' in
                    (r, mkEntry key v out :: tr)
                end
            end
        end
    end.

(** Modelled from the spec: a compiled graph, made of the graph, the step
    bound given at compilation and the generator of the per-run state
    ([None]: the generator panics). *)
Record Runnable : Type := mkRunnable {
  r_graph : Graph;
  r_maxRunSteps : Z;
  r_genLocalState : option S
}.

(** Modelled from the spec: the bound the engine enforces is the configured
    count, or the number of stages plus ten when none is configured (the
    default documented at [AgentConfig.MaxStep]). *)
Definition stepBound (r : Runnable) : nat :=
  if (r_maxRunSteps r =? 0)%Z then length (nodes (r_graph r)) + 10
  else Z.to_nat (r_maxRunSteps r).

(** Modelled from the spec: the blocking and the streaming call both drive
    the loop from the stage that follows [START], on a fresh state. *)
Definition Invoke (r : Runnable) (input : list MessagePtr)
    : result run_error Val * list TraceEntry :=
  match r_genLocalState r with
  | None => (Err ErrStateInit, [])
  | Some st0 =>
      match successor (r_graph r) START (VMsgs input) st0 with
      | Err e => (Err e, [])
      | Ok first => runSteps (r_graph r) (stepBound r) 0 first (VMsgs input) st0
      end
  end.

End engine.
Arguments NodeImpl : clear implicits.
Arguments GraphBranch : clear implicits.
Arguments Graph : clear implicits.
Arguments Runnable : clear implicits.

(** Modelled from the spec: the engine reads a stream into one message where
    a stage takes a message; a single fragment is the message itself, several
    are concatenated. *)
Definition concatStream (sr : StreamReader) : result error Message :=
  msgs ← recvAll sr;
  match msgs with
  | [] => Err (ErrOther "stream reader is empty")
  | [msg] => Ok msg
  | _ => ConcatMessages msgs
  end.

Definition typeMismatch : error := ErrOther "type mismatch".

End compose.
Export compose.

(** ** Package react, continued: configuration and graph assembly *)

Definition nodeKeyTools : string := "tools".
Definition nodeKeyModel : string := "chat".
Definition nodeKeyDirectReturn : string := "direct_return".

(** The model capability: the index of the step and the messages give the
    stream of the turn's fragments (a blocking call: one fragment). *)
Definition ChatModel : Type := nat → list MessagePtr → result error StreamReader.
(** The tools capability: the assistant message gives the result messages. *)
Definition ToolsNode : Type := nat → MessagePtr → result error (list MessagePtr).

Definition MessageModifier : Type := list MessagePtr → list MessagePtr.

Definition ToolInfo : Type := string.
Record BaseTool : Type := mkTool { Info : result error ToolInfo }.
Record ToolsNodeConfig : Type := mkToolsConfig { Tools : list BaseTool }.

Record AgentConfig : Type := mkConfig {
  ToolCallingModel : option ChatModel;
  Model : option ChatModel;
  ToolsConfig : ToolsNodeConfig;
  messageModifier : option MessageModifier;
  MaxStep : Z;
  ToolReturnDirectly : gset string;
  StreamToolCallChecker : option (StreamReader → result error bool)
}.

(** [NewPersonaModifier] *)
Definition NewPersonaModifier (persona : string) : MessageModifier :=
  λ input, [Some (SystemMessage persona)] ++ input.

(** [genToolInfos] *)
Fixpoint genToolInfos (tools : list BaseTool) : result error (list ToolInfo) :=
  match tools with
  | [] => Ok []
  | t :: rest => tl ← Info t; infos ← genToolInfos rest; Ok (tl :: infos)
  end.

(** [toolCallChecker] after the nil check of [NewAgent]. *)
Definition toolCallChecker (config : AgentConfig) : StreamReader → result error bool :=
  match StreamToolCallChecker config with
  | None => firstChunkStreamToolCallChecker
  | Some checker => checker
  end.

(** [modelPreHandle], on the history as a sequence.  The slices behind it, and
    the copy handed to the modifier, are the subject of [GoSlices] below. *)
Definition modelPreHandle (modifier : option MessageModifier)
    (input : list MessagePtr) (st : state) : list MessagePtr * state :=
  let st' := {| Messages := Messages st ++ input;
                ReturnDirectlyToolCallID := ReturnDirectlyToolCallID st |} in
  match modifier with
  | None => (Messages st', st')
  | Some f => (f (Messages st'), st')
  end.

(** [modelPostBranchCondition] *)
Definition modelPostBranchCondition (checker : StreamReader → result error bool)
    (sr : StreamReader) : result error string :=
  match checker sr with
  | Err err => Err err
  | Ok isToolCall => if isToolCall then Ok nodeKeyTools else Ok END
  end.

(** The branch condition that [buildReturnDirectly] puts after the tools
    node: it closes the stream and reads the marker from the state. *)
Definition toolsPostBranchCondition (st : state) : result error string :=
  if bool_decide (0 < String.length (ReturnDirectlyToolCallID st))
  then Ok nodeKeyDirectReturn
  else Ok nodeKeyModel.

(** The three stages as the engine runs them. *)
Definition chatModelNode (chatModel : ChatModel) (modifier : option MessageModifier)
    : NodeImpl state :=
  λ step v st,
    match v with
    | VMsgs input =>
        let '(msgs, st') := modelPreHandle modifier input st in
        sr ← chatModel step msgs; Ok (VStream sr, st')
    | _ => Err typeMismatch
    end.

Definition toolsNodeImpl (toolsNode : ToolsNode) (toolReturnDirectly : gset string)
    : NodeImpl state :=
  λ step v st,
    match v with
    | VStream sr =>
        input ← concatStream sr;
        match toolsNodePreHandle toolReturnDirectly (Some input) st with
        | None => Err ErrPanic
        | Some (msg, st') => msgs ← toolsNode step msg; Ok (VMsgs msgs, st')
        end
    | _ => Err typeMismatch
    end.

(** The direct-return stage on the one batch a tools stage hands over.  A
    reader that holds exactly one message is passed on as that message. *)
Definition directReturnNode : NodeImpl state :=
  λ step v st,
    match v with
    | VMsgs msgs =>
        sr ← directReturnStream [msgs] st;
        match sr with
        | [Chunk msg] => Ok (VMsg (Some msg), st)
        | _ => Ok (VStream sr, st)
        end
    | _ => Err typeMismatch
    end.

Definition modelBranch (checker : StreamReader → result error bool) : GraphBranch state :=
  {| condition := λ v _, match v with
                         | VStream sr => modelPostBranchCondition checker sr
                         | _ => Err typeMismatch
                         end;
     endNodes := [nodeKeyTools; END] |}.

Definition toolsBranch : GraphBranch state :=
  {| condition := λ _ st, toolsPostBranchCondition st;
     endNodes := [nodeKeyModel; nodeKeyDirectReturn] |}.

(** [buildReturnDirectly] *)
Definition buildReturnDirectly (graph : Graph state) : Graph state :=
  let graph := AddNode graph nodeKeyDirectReturn directReturnNode in
  let graph := AddBranch graph nodeKeyTools toolsBranch in
  AddEdge graph nodeKeyDirectReturn END.

(** The graph that [NewAgent] assembles. *)
Definition buildGraph (config : AgentConfig) (chatModel : ChatModel) (toolsNode : ToolsNode)
    : Graph state :=
  let graph := NewGraph in
  let graph := AddNode graph nodeKeyModel (chatModelNode chatModel (messageModifier config)) in
  let graph := AddEdge graph START nodeKeyModel in
  let graph := AddNode graph nodeKeyTools
                 (toolsNodeImpl toolsNode (ToolReturnDirectly config)) in
  let graph := AddBranch graph nodeKeyModel (modelBranch (toolCallChecker config)) in
  if bool_decide (0 < size (ToolReturnDirectly config)) then buildReturnDirectly graph
  else AddEdge graph nodeKeyTools nodeKeyModel.

(** Go's [int], 64 bits wide on the usual platforms: a sum that leaves the
    range wraps around. *)
Definition wrapInt (z : Z) : Z := ((z + 2 ^ 63) mod 2 ^ 64 - 2 ^ 63)%Z.

(** The state generator given to [compose.NewGraph]: [make] panics on a
    negative capacity, which [config.MaxStep+1] is also when the sum wraps. *)
Definition genLocalState (config : AgentConfig) : option state :=
  if (wrapInt (MaxStep config + 1) <? 0)%Z then None
  else Some {| Messages := []; ReturnDirectlyToolCallID := "" |}.

(** ** The process: [registerStateOnce] and the registry of serializable types *)

Record process : Type := mkProcess {
  registerStateOnce : bool;          (* sync.Once: has [Do] run its function? *)
  registeredTypes : gset string;
  registerCalls : nat                (* how often registration was attempted *)
}.

(** The collaborators [NewAgent] calls into. *)
Record externals : Type := mkExternals {
  RegisterSerializableType : string → gset string → option error;
  ChatModelWithTools : option ChatModel → option ChatModel → list ToolInfo → result error ChatModel;
  NewToolNode : ToolsNodeConfig → result error ToolsNode
}.

Record Agent : Type := mkAgent {
  runnable : Runnable state;
  graph : Graph state
}.

(** [registerStateOnce.Do(func() { err = compose.RegisterSerializableType... })]:
    the function runs only if [Do] has not run before; [err] stays nil
    otherwise. *)
Definition registerState (ext : externals) (p : process) : option error * process :=
  if registerStateOnce p then (None, p)
  else
    let err := RegisterSerializableType ext "_eino_react_state" (registeredTypes p) in
    (err,
     {| registerStateOnce := true;
        registeredTypes := match err with
                           | None => {["_eino_react_state"]} ∪ registeredTypes p
                           | Some _ => registeredTypes p
                           end;
        registerCalls := Datatypes.S (registerCalls p) |}).

(** The agent [NewAgent] returns once the model and the tools node are at
    hand: the graph, compiled with [WithMaxRunSteps(config.MaxStep)]. *)
Definition compileAgent (config : AgentConfig) (chatModel : ChatModel) (toolsNode : ToolsNode)
    : Agent :=
  let graph := buildGraph config chatModel toolsNode in
  {| runnable := {| r_graph := graph;
                    r_maxRunSteps := MaxStep config;
                    r_genLocalState := genLocalState config |};
     graph := graph |}.

(** [NewAgent] after the registration. *)
Definition newAgentBuild (ext : externals) (config : AgentConfig) : result error Agent :=
  toolInfos ← genToolInfos (Tools (ToolsConfig config));
  chatModel ← ChatModelWithTools ext (Model config) (ToolCallingModel config) toolInfos;
  toolsNode ← NewToolNode ext (ToolsConfig config);
  Ok (compileAgent config chatModel toolsNode).

(** [NewAgent] *)
Definition NewAgent (ext : externals) (config : AgentConfig) (p : process)
    : result error Agent * process :=
  let '(err, p') := registerState ext p in
  match err with
  | Some e => (Err e, p')
  | None => (newAgentBuild ext config, p')
  end.

(** A sequence of [NewAgent] calls in one process. *)
Fixpoint NewAgents (ext : externals) (configs : list AgentConfig) (p : process)
    : list (result error Agent) * process :=
  match configs with
  | [] => ([], p)
  | config :: rest =>
      let '(r, p') := NewAgent ext config p in
      let '(rs, p'') := NewAgents ext rest p' in
      (r :: rs, p'')
  end.

(** [Agent.Stream] hands out what arrives at [END]; [Agent.Generate] reads it
    into one message. *)
Definition Stream (r : Agent) (input : list MessagePtr) : result run_error Val :=
  (Invoke (runnable r) input).1.

Definition Generate (r : Agent) (input : list MessagePtr) : result run_error MessagePtr :=
  match Stream r input with
  | Err e => Err e
  | Ok (VMsg msg) => Ok msg
  | Ok (VStream sr) =>
      match concatStream sr with
      | Ok msg => Ok (Some msg)
      | Err e => Err (ErrNodeRun END e)
      end
  | Ok (VMsgs _) => Err (ErrNodeRun END typeMismatch)
  end.

(** ** Go slices of message pointers, for [modelPreHandle]

    A slice is a header (backing array, length, capacity) into a heap of
    arrays; [append], [make] and [copy] act on the heap the way Go's do.  A
    message modifier is a Go function: it receives a slice header and may
    write the array behind it, allocate, and return any slice. *)

Module GoSlices.

Record Slice : Type := mkSlice {
  array : nat;
  len : nat;
  cap : nat
}.

Abbreviation Heap := (gmap nat (list MessagePtr)).

(** The elements of a slice, in order. *)
Definition read (h : Heap) (s : Slice) : option (list MessagePtr) :=
  arr ← h !! array s; Some (take (len s) arr).

Definition valid (h : Heap) (s : Slice) : Prop :=
  ∃ arr, h !! array s = Some arr ∧ length arr = cap s ∧ len s ≤ cap s.

Definition alloc (h : Heap) (arr : list MessagePtr) : nat * Heap :=
  let a := fresh (dom h) in (a, <[a := arr]> h).

(** [make([]*schema.Message, n)] *)
Definition make (n : nat) (h : Heap) : Slice * Heap :=
  let '(a, h') := alloc h (replicate n None) in
  ({| array := a; len := n; cap := n |}, h').

(** [copy(dst, src)] *)
Definition copy (dst src : Slice) (h : Heap) : option Heap :=
  d ← h !! array dst;
  s ← h !! array src;
  let n := len dst `min` len src in
  Some (<[array dst := take n s ++ drop n d]> h).

Section append.
(** The capacity Go's runtime picks when [append] has to reallocate, from the
    old capacity and the length needed. *)
Variable growslice : nat → nat → nat.

(** [append(s, xs...)] *)
Definition append (s : Slice) (xs : list MessagePtr) (h : Heap) : option (Slice * Heap) :=
  arr ← h !! array s;
  let n := len s + length xs in
  if bool_decide (n ≤ cap s) then
    Some ({| array := array s; len := n; cap := cap s |},
          <[array s := take (len s) arr ++ xs ++ drop n arr]> h)
  else
    let c := growslice (cap s) n in
    let '(a, h') := alloc h (take (len s) arr ++ xs ++ replicate (c - n) None) in
    Some ({| array := a; len := n; cap := c |}, h').

(** The state with its history as a slice. *)
Record stateH : Type := mkStateH {
  MessagesH : Slice;
  ReturnDirectlyToolCallIDH : string
}.

Definition ModifierH : Type := Slice → Heap → Slice * Heap.

(** [modelPreHandle] on slices.  [None]: a slice that points nowhere. *)
Definition modelPreHandleH (modifier : option ModifierH)
    (input : list MessagePtr) (st : stateH) (h : Heap) : option (Slice * stateH * Heap) :=
  '(s1, h1) ← append (MessagesH st) input h;
  let st1 := {| MessagesH := s1;
                ReturnDirectlyToolCallIDH := ReturnDirectlyToolCallIDH st |} in
  match modifier with
  | None => Some (s1, st1, h1)
  | Some f =>
      let '(modifiedInput, h2) := make (len s1) h1 in
      h3 ← copy modifiedInput s1 h2;
      let '(out, h4) := f modifiedInput h3 in
      Some (out, st1, h4)
  end.

End append.

(** What the language guarantees of a modifier: it reaches the arrays of the
    heap only through the slice it is given. *)
Definition framed (f : ModifierH) : Prop :=
  ∀ s h s' h', f s h = (s', h') →
    ∀ a, a ≠ array s → a ∈ dom h → h' !! a = h !! a.

(** A modifier that works on the elements only, as [NewPersonaModifier]
    does: it builds its result in a new array. *)
Definition pureModifier (g : MessageModifier) : ModifierH :=
  λ s h,
    let xs := g (default [] (read h s)) in
    let '(a, h') := alloc h xs in
    ({| array := a; len := length xs; cap := length xs |}, h').

(** A modifier that overwrites the slice it is given with nil pointers and
    returns it. *)
Definition clobber : ModifierH :=
  λ s h, (s, <[array s := replicate (cap s) None]> h).

End GoSlices.

(** * Specification-side notions and sample data

    The notions the statements below are phrased with, written after the
    wording of the specification, and the concrete data of the examples. *)

(** A fragment that is empty in both its tool calls and its content. *)
Definition emptyFragment (msg : Message) : Prop :=
  ToolCalls msg = [] ∧ Content msg = "".

Definition sampleCall (id name : string) : ToolCall :=
  {| Index := None; ID := id; Type_ := "function";
     Function := {| Name := name; Arguments := "{}" |} |}.

Definition assistantMsg (content : string) (calls : list ToolCall) : Message :=
  {| Role := Assistant; Content := content; ToolCalls := calls; ToolCallID := "" |}.

Definition toolMsg (id content : string) : Message :=
  {| Role := Tool; Content := content; ToolCalls := []; ToolCallID := id |}.

(** A batch entry that answers the call [marker]. *)
Definition answers (marker : string) (p : MessagePtr) : Prop :=
  ∃ m, p = Some m ∧ ToolCallID m = marker.

(** A tool-call request whose tool is in the direct-return set. *)
Definition eligible (toolReturnDirectly : gset string) (tc : ToolCall) : Prop :=
  Name (Function tc) ∈ toolReturnDirectly.

Definition primingFragment : Message := assistantMsg "" [].
Definition callFragment : Message := assistantMsg "" [sampleCall "c1" "search"].

Definition sampleBatch : list MessagePtr :=
  [Some (toolMsg "c0" "other"); None; Some (toolMsg "c1" "result")].
Definition strayBatch : list MessagePtr := [Some (toolMsg "c0" "other"); None].
Definition pendingC1 : state :=
  {| Messages := []; ReturnDirectlyToolCallID := "c1" |}.

(** The extractor as the specification words it: with the marker set and no
    entry of the batch answering it, the extractor fails with the
    no-matching-value error, be it as the error it returns or as the error
    met when its output is read. *)
Definition failsWithoutMatch (msgs : list MessagePtr) (st : state) : Prop :=
  ReturnDirectlyToolCallID st ≠ "" →
  Forall (λ p, ¬ answers (ReturnDirectlyToolCallID st) p) msgs →
  directReturnStream [msgs] st = Err ErrNoValue
  ∨ ∃ sr, directReturnStream [msgs] st = Ok sr ∧ recvAll sr = Err ErrNoValue.

(** The first answer of each batch that holds one, in the order of the
    batches. *)
Definition firstAnswers (batches : list (list MessagePtr)) (st : state) : list Message :=
  omap (directReturn_find (ReturnDirectlyToolCallID st)) batches.

Definition searchCallC1 : ToolCall := sampleCall "c1" "search".
Definition turnTwoCalls : Message :=
  assistantMsg "" [sampleCall "c0" "lookup"; searchCallC1; sampleCall "c2" "search"].
Definition emptyState : state := {| Messages := []; ReturnDirectlyToolCallID := "" |}.
Definition oneMessageState : state :=
  {| Messages := [Some callFragment]; ReturnDirectlyToolCallID := "" |}.

(** A registration that always fails, and the process before any [NewAgent]. *)
Definition failingExternals : externals :=
  {| RegisterSerializableType := λ _ _, Some (ErrOther "type name taken");
     ChatModelWithTools := λ _ _ _, Err (ErrOther "no chat model");
     NewToolNode := λ _, Err (ErrOther "no tools") |}.
Definition freshProcess : process :=
  {| registerStateOnce := false; registeredTypes := ∅; registerCalls := 0 |}.
Definition plainConfig : AgentConfig :=
  {| ToolCallingModel := None; Model := None; ToolsConfig := {| Tools := [] |};
     messageModifier := None; MaxStep := 0; ToolReturnDirectly := ∅;
     StreamToolCallChecker := None |}.

Definition userMsg (content : string) : Message :=
  {| Role := User; Content := content; ToolCalls := []; ToolCallID := "" |}.
Definition userTurn : list MessagePtr := [Some (userMsg "2+2?")].

(** A runtime that reallocates to exactly the length needed, and a state whose
    history is an empty slice of capacity two. *)
Definition exactGrow : nat → nat → nat := λ _ n, n.
Definition sampleHeap : GoSlices.Heap := {[ 0 := [None; None] ]}.
Definition sampleStateH : GoSlices.stateH :=
  {| GoSlices.MessagesH := {| GoSlices.array := 0; GoSlices.len := 0; GoSlices.cap := 2 |};
     GoSlices.ReturnDirectlyToolCallIDH := "" |}.

(** The fragments of a streamed request, in arrival order: the chunks that
    carry the sequence index [k]; and the chunks that carry none. *)
Definition fragmentsOf (k : Z) (chunks : list ToolCall) : list ToolCall :=
  filter (λ c, Index c = Some k) chunks.
Definition unindexed (chunks : list ToolCall) : list ToolCall :=
  filter (λ c, Index c = None) chunks.

(** The last non-empty value of a sequence of strings (the first one is
    [firstNonEmpty]). *)
Fixpoint lastNonEmpty (l : list string) : string :=
  match l with
  | [] => ""
  | s :: rest => if str_empty (lastNonEmpty rest) then s else lastNonEmpty rest
  end.

(** The request merged from the fragments [frs] of index [k], where [pick]
    chooses the identifier, type and name among the values seen and the
    argument fragments are concatenated in arrival order. *)
Definition mergedRequest (pick : list string → string) (k : Z) (frs : list ToolCall)
    : ToolCall :=
  {| Index := Some k;
     ID := pick (ID <$> frs);
     Type_ := pick (Type_ <$> frs);
     Function := {| Name := pick ((λ c, Name (Function c)) <$> frs);
                    Arguments := String.concat "" ((λ c, Arguments (Function c)) <$> frs) |} |}.

(** The full-consume merge as the specification words it: each index that
    occurs yields the request merged with the first non-empty identifier, type
    and name. *)
Definition sameRequest (a b : ToolCall) : Prop :=
  ID a = ID b ∧ Type_ a = Type_ b ∧ Function a = Function b.


Definition chunkA : ToolCall :=
  {| Index := Some 0%Z; ID := "call_a"; Type_ := "function";
     Function := {| Name := "search"; Arguments := "{q:" |} |}.
Definition chunkB : ToolCall :=
  {| Index := Some 0%Z; ID := "call_b"; Type_ := "";
     Function := {| Name := ""; Arguments := "1}" |} |}.

(** Auxiliary notions of the proofs about [concatToolCalls]. *)

(** What an entry that holds the address of the range variable shows once
    the variable has been assigned [v]; [None]: it was never assigned. *)
Definition repoint (v : option Z) (tc : ToolCall) : ToolCall :=
  match v with
  | Some _ => setIndex tc v
  | None => tc
  end.

(** The positions, counted from [i], of the chunks of index [k]. *)
Fixpoint positionsFrom (i : nat) (k : Z) (chunks : list ToolCall) : list nat :=
  match chunks with
  | [] => []
  | c :: rest =>
      if decide (Index c = Some k) then i :: positionsFrom (S i) k rest
      else positionsFrom (S i) k rest
  end.

(** What the inner loop computes from the chunks of a group, as a fold. *)
Fixpoint mergeFold (frs : list ToolCall) (res : ToolCall) (argsBuilder : string)
    : ToolCall :=
  match frs with
  | [] => setArguments res argsBuilder
  | chunk :: rest =>
      mergeFold rest (fst (mergeChunk res argsBuilder chunk))
                     (snd (mergeChunk res argsBuilder chunk))
  end.

Definition keepOr (init s : string) : string := if str_empty s then init else s.

(** ** Runs *)

(** The executed stage [e], if it is a model turn, is one for which the
    configured checker reports a tool call. *)
Definition reportsToolCall (config : AgentConfig) (e : TraceEntry) : Prop :=
  te_node e = nodeKeyModel →
  ∃ sr, te_out e = VStream sr ∧ toolCallChecker config sr = Ok true.

(** A model turn that yields no tool call: none of its fragments carries
    one. *)
Definition yieldsNoToolCall (sr : StreamReader) : Prop :=
  Forall (λ item, match item with
                  | Chunk msg => ToolCalls msg = []
                  | RecvErr _ => True
                  end) sr.

(** The loop claim as the specification words it: a run that ends normally
    ends on a model turn that yields no tool call. *)
Definition endsOnlyWithoutToolCalls (config : AgentConfig) (chatModel : ChatModel)
    (toolsNode : ToolsNode) (input : list MessagePtr) : Prop :=
  ∀ out, fst (Invoke (runnable (compileAgent config chatModel toolsNode)) input) = Ok out →
    ∃ sr, out = VStream sr ∧ yieldsNoToolCall sr.

(** The direct-return claim as the specification words it: when the tools
    stage ran on an assistant message whose first eligible request is [tc] and
    produced a batch whose first answer to [tc] is [m], the run ends with [m]
    and no model turn follows. *)
Definition directReturnEndsRun (config : AgentConfig) (chatModel : ChatModel)
    (toolsNode : ToolsNode) (input : list MessagePtr) : Prop :=
  ∀ pre post sr batch am before tc after bpre m brest,
    snd (Invoke (runnable (compileAgent config chatModel toolsNode)) input)
      = pre ++ mkEntry nodeKeyTools (VStream sr) (VMsgs batch) :: post →
    concatStream sr = Ok am →
    ToolCalls am = before ++ tc :: after →
    Forall (λ c, ¬ eligible (ToolReturnDirectly config) c) before →
    eligible (ToolReturnDirectly config) tc →
    batch = bpre ++ Some m :: brest →
    ToolCallID m = ID tc →
    Forall (λ p, ¬ answers (ID tc) p) bpre →
    fst (Invoke (runnable (compileAgent config chatModel toolsNode)) input)
      = Ok (VMsg (Some m))
    ∧ Forall (λ e, te_node e ≠ nodeKeyModel) post.

(** Sample collaborators: a model that requests [call] on its first turn and
    answers in plain text afterwards, one that always requests [call], one
    that streams text before the request, and a tools node that answers every
    request of the message. *)
Definition plainAnswer : Message := assistantMsg "4" [].
Definition modelCallsOnce (call : ToolCall) : ChatModel :=
  λ step _, if bool_decide (step = 0) then Ok [Chunk (assistantMsg "" [call])]
            else Ok [Chunk plainAnswer].
Definition modelAlwaysCalls (call : ToolCall) : ChatModel :=
  λ _ _, Ok [Chunk (assistantMsg "" [call])].
Definition textFirstTurn : StreamReader :=
  [Chunk (assistantMsg "Let me look that up." []); Chunk (assistantMsg "" [searchCallC1])].
Definition modelTextFirst : ChatModel := λ _ _, Ok textFirstTurn.
Definition toolsAnswerAll : ToolsNode :=
  λ _ msg, Ok ((λ c, Some (toolMsg (ID c) "result"))
                 <$> default [] (ToolCalls <$> msg)).
Definition toolsAnswerNone : ToolsNode := λ _ _, Ok [].

Definition configWith (maxStep : Z) (direct : gset string) : AgentConfig :=
  {| ToolCallingModel := None; Model := None; ToolsConfig := {| Tools := [] |};
     messageModifier := None; MaxStep := maxStep; ToolReturnDirectly := direct;
     StreamToolCallChecker := None |}.
Definition unnamedCall : ToolCall := sampleCall "" "search".

Definition directConfig (maxStep : Z) : AgentConfig := configWith maxStep {["search"]}.
Definition requestTurn (call : ToolCall) : StreamReader := [Chunk (assistantMsg "" [call])].
Definition answerBatch (call : ToolCall) : list MessagePtr := [Some (toolMsg (ID call) "result")].
Definition firstTurnEntry (call : ToolCall) : TraceEntry :=
  mkEntry nodeKeyModel (VMsgs userTurn) (VStream (requestTurn call)).
Definition secondTurnEntry (call : ToolCall) : TraceEntry :=
  mkEntry nodeKeyModel (VMsgs (answerBatch call)) (VStream [Chunk plainAnswer]).

(** * Further notions: the rest of the package *)

(** A fragment that decides the default checker: it is not empty in both its
    tool calls and its content. *)
Definition decisiveFragment (msg : Message) : Prop := ¬ emptyFragment msg.

(** Sample tools: two that describe themselves and one whose [Info] fails. *)
Definition toolSearch : BaseTool := {| Info := Ok "search" |}.
Definition toolLookup : BaseTool := {| Info := Ok "lookup" |}.
Definition toolBroken : BaseTool := {| Info := Err (ErrOther "no schema") |}.

(** [make([]*schema.Message, n, c)]: length [n], capacity [c]. *)
Definition makeCap (n c : nat) (h : GoSlices.Heap) : GoSlices.Slice * GoSlices.Heap :=
  let '(a, h') := GoSlices.alloc h (replicate c None) in
  ({| GoSlices.array := a; GoSlices.len := n; GoSlices.cap := c |}, h').

(** [NewPersonaModifier] on slices: a new slice of capacity [len(input)+1]
    receives the system message, then the elements of the input.  A slice
    that points nowhere, which Go cannot produce, leaves the new slice as it
    is. *)
Definition NewPersonaModifierH (growslice : nat → nat → nat) (persona : string)
    : GoSlices.ModifierH :=
  λ input h,
    let '(res, h1) := makeCap 0 (GoSlices.len input + 1) h in
    default (res, h1)
      ('(res1, h2) ← GoSlices.append growslice res [Some (SystemMessage persona)] h1;
       xs ← GoSlices.read h2 input;
       GoSlices.append growslice res1 xs h2).

(** A request streamed in pieces under the sequence index [k]: the first
    fragment carries the identifier, the type, the name and the first piece of
    the arguments, the later ones only a piece of the arguments. *)
Definition continuation (k : Z) (piece : string) : ToolCall :=
  {| Index := Some k; ID := ""; Type_ := "";
     Function := {| Name := ""; Arguments := piece |} |}.
Definition streamRequest (k : Z) (r : ToolCall) (pieces : list string) : list ToolCall :=
  match pieces with
  | [] => []
  | p :: ps =>
      {| Index := Some k; ID := ID r; Type_ := Type_ r;
         Function := {| Name := Name (Function r); Arguments := p |} |}
      :: (continuation k <$> ps)
  end.

Definition weatherCall : ToolCall :=
  {| Index := Some 1%Z; ID := "call_w"; Type_ := "function";
     Function := {| Name := "weather"; Arguments := "{city:Paris}" |} |}.

(** The keys of the stages of a graph, and whether a key names a place a run
    can be routed to: a stage of the graph or [END]. *)
Definition stageKeys {S : Type} (g : Graph S) : list string := fst <$> nodes g.
Definition routable {S : Type} (g : Graph S) (key : string) : Prop :=
  key = END ∨ key ∈ stageKeys g.

(** A registration that succeeds. *)
Definition workingExternals : externals :=
  {| RegisterSerializableType := λ _ _, None;
     ChatModelWithTools := λ _ _ _, Err (ErrOther "no chat model");
     NewToolNode := λ _, Err (ErrOther "no tools") |}.
(** * Properties *)

(** ** The default stream tool-call checker *)

Lemma str_empty_true (s : string) : str_empty s = true ↔ s = "".
Proof. destruct s; simpl; split; congruence. Qed.

Lemma str_empty_false (s : string) : str_empty s = false ↔ s ≠ "".
Proof. destruct s; simpl; split; congruence. Qed.

Lemma has_calls_true (msg : Message) :
  ToolCalls msg ≠ [] → bool_decide (0 < length (ToolCalls msg)) = true.
Proof.
  intros H. apply bool_decide_eq_true. destruct (ToolCalls msg); [done | simpl; lia].
Qed.

Lemma has_calls_false (msg : Message) :
  ToolCalls msg = [] → bool_decide (0 < length (ToolCalls msg)) = false.
Proof. intros ->. apply bool_decide_eq_false. simpl. lia. Qed.

Lemma firstChunk_skip (e : Message) (sr : StreamReader) :
  emptyFragment e →
  firstChunkStreamToolCallChecker (Chunk e :: sr) = firstChunkStreamToolCallChecker sr.
Proof.
  intros [Hc Ht]. simpl. rewrite (has_calls_false _ Hc).
  by rewrite (proj2 (str_empty_true _) Ht).
Qed.

Lemma firstChunk_skip_prefix (pre : list Message) (sr : StreamReader) :
  Forall emptyFragment pre →
  firstChunkStreamToolCallChecker ((Chunk <$> pre) ++ sr) = firstChunkStreamToolCallChecker sr.
Proof.
  induction 1 as [|e pre He _ IH]; [done|].
  rewrite fmap_cons, <- app_comm_cons, firstChunk_skip; done.
Qed.

(** C2: on a finite fragment sequence the default checker answers [true] at
    the first fragment with a non-empty tool-call list, [false] at the first
    fragment with content and no tool call, skips the fragments empty in both,
    answers [false] when the stream ends with neither; an empty first fragment
    followed by one with tool calls gives [true]. *)
Theorem firstChunk_checker_spec (frags : list Message) :
  (∀ pre f rest, frags = pre ++ f :: rest → Forall emptyFragment pre →
     ToolCalls f ≠ [] →
     firstChunkStreamToolCallChecker (Chunk <$> frags) = Ok true)
  ∧ (∀ pre f rest, frags = pre ++ f :: rest → Forall emptyFragment pre →
     ToolCalls f = [] → Content f ≠ "" →
     firstChunkStreamToolCallChecker (Chunk <$> frags) = Ok false)
  ∧ (∀ e rest, frags = e :: rest → emptyFragment e →
     firstChunkStreamToolCallChecker (Chunk <$> frags)
     = firstChunkStreamToolCallChecker (Chunk <$> rest))
  ∧ (Forall emptyFragment frags →
     firstChunkStreamToolCallChecker (Chunk <$> frags) = Ok false)
  ∧ (∀ e f rest, frags = e :: f :: rest → emptyFragment e → ToolCalls f ≠ [] →
     firstChunkStreamToolCallChecker (Chunk <$> frags) = Ok true).
Proof.
  repeat split.
  - intros pre f rest -> Hpre Hf.
    rewrite fmap_app, fmap_cons, firstChunk_skip_prefix by done.
    simpl. by rewrite has_calls_true.
  - intros pre f rest -> Hpre Hf Hc.
    rewrite fmap_app, fmap_cons, firstChunk_skip_prefix by done.
    simpl. rewrite has_calls_false by done.
    by rewrite (proj2 (str_empty_false _) Hc).
  - intros e rest -> He. rewrite fmap_cons. by apply firstChunk_skip.
  - intros Hall.
    rewrite <- (app_nil_r (Chunk <$> frags)), firstChunk_skip_prefix; done.
  - intros e f rest -> He Hf.
    rewrite !fmap_cons, firstChunk_skip by done.
    simpl. by rewrite has_calls_true.
Qed.

Lemma firstChunk_checker_witness :
  emptyFragment primingFragment ∧ ToolCalls callFragment ≠ []
  ∧ firstChunkStreamToolCallChecker (Chunk <$> [primingFragment; callFragment]) = Ok true.
Proof.
  assert (He : emptyFragment primingFragment) by (split; reflexivity).
  assert (Hc : ToolCalls callFragment ≠ []) by discriminate.
  split; [exact He|]. split; [exact Hc|].
  exact (proj2 (proj2 (proj2 (proj2 (firstChunk_checker_spec [primingFragment; callFragment]))))
           primingFragment callFragment [] eq_refl He Hc).
Defined.

(** ** The direct-return conversion *)

Lemma directReturn_find_skip (marker : string) (pre rest : list MessagePtr) :
  Forall (λ p, ¬ answers marker p) pre →
  directReturn_find marker (pre ++ rest) = directReturn_find marker rest.
Proof.
  induction 1 as [|p pre Hp _ IH]; [done|].
  simpl. destruct p as [m|]; [|done].
  rewrite bool_decide_eq_false_2; [done|].
  intros Heq. apply Hp. by exists m.
Qed.

Lemma directReturn_find_first (marker : string) (msgs : list MessagePtr) :
  Exists (answers marker) msgs →
  ∃ pre m rest, msgs = pre ++ Some m :: rest ∧ ToolCallID m = marker
                ∧ Forall (λ p, ¬ answers marker p) pre.
Proof.
  induction msgs as [|p msgs IH]; intros Hex; [by apply Exists_nil in Hex|].
  destruct p as [m|].
  - destruct (decide (ToolCallID m = marker)) as [Heq|Hne].
    + exists [], m, msgs. by repeat split.
    + apply Exists_cons in Hex as [(m' & [= <-] & ?)|Hex]; [done|].
      destruct (IH Hex) as (pre & m' & rest & -> & Hid & Hpre).
      exists (Some m :: pre), m', rest. repeat split; [done|].
      constructor; [|done]. by intros (m'' & [= <-] & ?).
  - apply Exists_cons in Hex as [(m' & [=] & ?)|Hex].
    destruct (IH Hex) as (pre & m' & rest & -> & Hid & Hpre).
    exists (None :: pre), m', rest. repeat split; [done|].
    constructor; [|done]. by intros (m'' & [=] & ?).
Qed.

Lemma directReturn_first (pre rest : list MessagePtr) (m : Message) (st : state) :
  ToolCallID m = ReturnDirectlyToolCallID st →
  Forall (λ p, ¬ answers (ReturnDirectlyToolCallID st) p) pre →
  directReturn (pre ++ Some m :: rest) st = Ok m.
Proof.
  intros Hid Hpre. unfold directReturn.
  rewrite directReturn_find_skip by done. simpl.
  by rewrite bool_decide_eq_true_2.
Qed.

Lemma directReturn_none (msgs : list MessagePtr) (st : state) :
  Forall (λ p, ¬ answers (ReturnDirectlyToolCallID st) p) msgs →
  directReturn_find (ReturnDirectlyToolCallID st) msgs = None.
Proof.
  intros Hall. rewrite <- (app_nil_r msgs), directReturn_find_skip by done. done.
Qed.

Lemma directReturnStream_run (batches : list (list MessagePtr)) (st : state) :
  directReturnStream batches st = Ok (Chunk <$> firstAnswers batches st).
Proof.
  unfold directReturnStream, firstAnswers. f_equal.
  induction batches as [|b batches IH]; [done|].
  cbn [StreamReaderWithConvert omap list_omap]. unfold directReturn at 1.
  destruct (directReturn_find (ReturnDirectlyToolCallID st) b) as [m|].
  - rewrite fmap_cons. by f_equal.
  - done.
Qed.

Lemma directReturnNode_answer (step : nat) (msgs : list MessagePtr) (st : state)
    (m : Message) :
  directReturn msgs st = Ok m →
  directReturnNode step (VMsgs msgs) st = Ok (VMsg (Some m), st).
Proof.
  intros Hd. unfold directReturnNode, directReturnStream.
  cbn [StreamReaderWithConvert]. by rewrite Hd.
Qed.

(** C4, as amended: with a non-empty marker, the extractor returns a
    reader and no error whatever the batches hold; the reader delivers, in
    order, the first message of each batch whose [ToolCallID] is the marker.
    A batch in which no message carries the marker makes the conversion
    answer [ErrNoValue], which only leaves that batch out: on such a batch
    alone the extractor returns the empty reader, and the stage succeeds with
    it. *)
Theorem directReturn_extractor_spec (batches : list (list MessagePtr))
    (msgs : list MessagePtr) (st : state) :
  ReturnDirectlyToolCallID st ≠ "" →
  directReturnStream batches st = Ok (Chunk <$> firstAnswers batches st)
  ∧ (Exists (answers (ReturnDirectlyToolCallID st)) msgs →
     ∃ pre m rest, msgs = pre ++ Some m :: rest
       ∧ ToolCallID m = ReturnDirectlyToolCallID st
       ∧ Forall (λ p, ¬ answers (ReturnDirectlyToolCallID st) p) pre
       ∧ directReturn msgs st = Ok m
       ∧ firstAnswers [msgs] st = [m]
       ∧ ∀ step, directReturnNode step (VMsgs msgs) st = Ok (VMsg (Some m), st))
  ∧ (Forall (λ p, ¬ answers (ReturnDirectlyToolCallID st) p) msgs →
     directReturn msgs st = Err ErrNoValue
     ∧ firstAnswers [msgs] st = []
     ∧ directReturnStream [msgs] st = Ok []
     ∧ ∀ step, directReturnNode step (VMsgs msgs) st = Ok (VStream [], st)).
Proof.
  intros _. split; [apply directReturnStream_run|]. split.
  - intros Hex.
    destruct (directReturn_find_first _ _ Hex) as (pre & m & rest & -> & Hid & Hpre).
    exists pre, m, rest.
    assert (Hfind : directReturn_find (ReturnDirectlyToolCallID st) (pre ++ Some m :: rest)
                    = Some m).
    { rewrite directReturn_find_skip by done. simpl. by rewrite bool_decide_eq_true_2. }
    assert (Hfirst : firstAnswers [pre ++ Some m :: rest] st = [m]).
    { unfold firstAnswers. cbn [omap list_omap]. by rewrite Hfind. }
    repeat split; try done.
    + by apply directReturn_first.
    + intros step. unfold directReturnNode.
      by rewrite directReturnStream_run, Hfirst.
  - intros Hall. pose proof (directReturn_none _ _ Hall) as Hfind.
    assert (Hfirst : firstAnswers [msgs] st = []).
    { unfold firstAnswers. cbn [omap list_omap]. by rewrite Hfind. }
    repeat split; try done.
    + unfold directReturn. by rewrite Hfind.
    + by rewrite directReturnStream_run, Hfirst.
    + intros step. unfold directReturnNode.
      by rewrite directReturnStream_run, Hfirst.
Qed.

Lemma directReturn_extractor_witness :
  ReturnDirectlyToolCallID pendingC1 ≠ ""
  ∧ Exists (answers (ReturnDirectlyToolCallID pendingC1)) sampleBatch
  ∧ Forall (λ p, ¬ answers (ReturnDirectlyToolCallID pendingC1) p) strayBatch
  ∧ directReturnStream [strayBatch; sampleBatch] pendingC1
    = Ok [Chunk (toolMsg "c1" "result")]
  ∧ directReturn sampleBatch pendingC1 = Ok (toolMsg "c1" "result")
  ∧ directReturn strayBatch pendingC1 = Err ErrNoValue
  ∧ directReturnStream [strayBatch] pendingC1 = Ok [].
Proof.
  assert (Hne : ReturnDirectlyToolCallID pendingC1 ≠ "") by discriminate.
  assert (Hex : Exists (answers (ReturnDirectlyToolCallID pendingC1)) sampleBatch).
  { do 2 apply Exists_cons_tl. apply Exists_cons_hd. by eexists. }
  assert (Hall : Forall (λ p, ¬ answers (ReturnDirectlyToolCallID pendingC1) p) strayBatch).
  { repeat constructor; intros (m & [= <-] & Hid); discriminate Hid. }
  split; [exact Hne|]. split; [exact Hex|]. split; [exact Hall|].
  split;
    [exact (proj1 (directReturn_extractor_spec [strayBatch; sampleBatch]
                     sampleBatch pendingC1 Hne))|].
  split; [reflexivity|].
  destruct (proj2 (proj2 (directReturn_extractor_spec [] strayBatch pendingC1 Hne)) Hall)
    as (Hconv & _ & Hstream & _).
  split; [exact Hconv | exact Hstream].
Defined.

(** C4, as stated, fails: on a batch in which no entry answers the marker the
    extractor returns a reader and a nil error, and the reader ends without
    an error. *)
Lemma directReturn_no_match_no_error : ¬ failsWithoutMatch strayBatch pendingC1.
Proof.
  intros Hfails.
  destruct Hfails as [Hrun|(sr & Hrun & Hread)].
  - discriminate.
  - repeat constructor; intros (m & [= <-] & Hid); discriminate Hid.
  - discriminate Hrun.
  - vm_compute in Hrun. injection Hrun as <-. discriminate Hread.
Qed.

(** ** The pre-handler of the tools node *)

Lemma scanToolCalls_skip (set : gset string) (pre rest : list ToolCall) :
  Forall (λ c, ¬ eligible set c) pre →
  scanToolCalls set (pre ++ rest) = scanToolCalls set rest.
Proof.
  induction 1 as [|c pre Hc _ IH]; [done|].
  simpl. by rewrite bool_decide_eq_false_2.
Qed.

Lemma getReturnDirectlyToolCallID_first (set : gset string) (input : Message)
    (pre rest : list ToolCall) (tc : ToolCall) :
  ToolCalls input = pre ++ tc :: rest →
  Forall (λ c, ¬ eligible set c) pre → eligible set tc →
  getReturnDirectlyToolCallID input set = ID tc.
Proof.
  intros Heq Hpre Htc. unfold getReturnDirectlyToolCallID.
  rewrite bool_decide_eq_false_2.
  - rewrite Heq, scanToolCalls_skip by done. simpl.
    by rewrite bool_decide_eq_true_2.
  - intros Hsz. apply size_empty_inv in Hsz. unfold eligible in Htc.
    rewrite (leibniz_equiv _ _ Hsz) in Htc. set_solver.
Qed.

Lemma getReturnDirectlyToolCallID_none (set : gset string) (input : Message) :
  Forall (λ c, ¬ eligible set c) (ToolCalls input) →
  getReturnDirectlyToolCallID input set = "".
Proof.
  intros Hall. unfold getReturnDirectlyToolCallID.
  case_bool_decide; [done|].
  rewrite <- (app_nil_r (ToolCalls input)), scanToolCalls_skip; done.
Qed.

(** C6: with a non-nil input the pre-handler of the tools node appends the
    message to the history and sets the marker to the ID of the first
    tool-call request, in request order, whose tool is in the direct-return
    set, whatever requests follow it; the marker is empty when the set is
    empty or no request is in the set. *)
Theorem toolsNodePreHandle_records_first (set : gset string) (input : Message) (st : state) :
  ∃ st', toolsNodePreHandle set (Some input) st = Some (Some input, st')
    ∧ Messages st' = Messages st ++ [Some input]
    ∧ (∀ pre tc rest, ToolCalls input = pre ++ tc :: rest →
         Forall (λ c, ¬ eligible set c) pre → eligible set tc →
         ReturnDirectlyToolCallID st' = ID tc)
    ∧ (Forall (λ c, ¬ eligible set c) (ToolCalls input) →
         ReturnDirectlyToolCallID st' = "")
    ∧ (set = ∅ → ReturnDirectlyToolCallID st' = "").
Proof.
  eexists. split; [reflexivity|]. simpl. repeat split.
  - intros pre tc rest. apply getReturnDirectlyToolCallID_first.
  - apply getReturnDirectlyToolCallID_none.
  - intros ->. unfold getReturnDirectlyToolCallID.
    by rewrite bool_decide_eq_true_2.
Qed.

(** C9: with a nil input the pre-handler of the tools node returns the last
    message of the history and leaves the state as it is; on an empty history
    the index is out of range and there is no result. *)
Theorem toolsNodePreHandle_nil_input (set : gset string) (st : state) :
  (Messages st ≠ [] →
     ∃ msg, last (Messages st) = Some msg
       ∧ toolsNodePreHandle set None st = Some (msg, st))
  ∧ (Messages st = [] → toolsNodePreHandle set None st = None).
Proof.
  split.
  - intros Hne. destruct (Messages st) as [|m l] eqn:Hm using rev_ind; [done|].
    exists m. rewrite last_snoc. split; [done|].
    unfold toolsNodePreHandle. rewrite Hm, length_app. simpl.
    replace (length l + 1) with (S (length l)) by lia.
    by rewrite list_lookup_middle.
  - intros Hnil. unfold toolsNodePreHandle. by rewrite Hnil.
Qed.

Lemma toolsNodePreHandle_records_first_witness :
  ∃ st', toolsNodePreHandle {["search"]} (Some turnTwoCalls) emptyState
           = Some (Some turnTwoCalls, st')
    ∧ Messages st' = [Some turnTwoCalls]
    ∧ ReturnDirectlyToolCallID st' = "c1".
Proof.
  destruct (toolsNodePreHandle_records_first {["search"]} turnTwoCalls emptyState)
    as (st' & Hrun & Hmsgs & Hfirst & _).
  exists st'. split; [exact Hrun|]. split; [exact Hmsgs|].
  apply (Hfirst [sampleCall "c0" "lookup"] searchCallC1 [sampleCall "c2" "search"]).
  - reflexivity.
  - repeat constructor. unfold eligible. simpl. set_solver.
  - unfold eligible. simpl. set_solver.
Defined.

Lemma toolsNodePreHandle_nil_input_witness :
  Messages oneMessageState ≠ []
  ∧ (∃ msg, last (Messages oneMessageState) = Some msg
       ∧ toolsNodePreHandle ∅ None oneMessageState = Some (msg, oneMessageState))
  ∧ Messages emptyState = []
  ∧ toolsNodePreHandle ∅ None emptyState = None.
Proof.
  assert (Hne : Messages oneMessageState ≠ []) by discriminate.
  split; [exact Hne|].
  split; [exact (proj1 (toolsNodePreHandle_nil_input ∅ oneMessageState) Hne)|].
  split; [reflexivity|].
  exact (proj2 (toolsNodePreHandle_nil_input ∅ emptyState) eq_refl).
Defined.

(** ** The branch decisions *)

Lemma marker_nonempty (s : string) :
  bool_decide (0 < String.length s) = negb (str_empty s).
Proof.
  destruct s as [|a s].
  - by rewrite bool_decide_eq_false_2 by (simpl; lia).
  - by rewrite bool_decide_eq_true_2 by (simpl; lia).
Qed.

Lemma toolsPostBranchCondition_nonempty (st : state) :
  ReturnDirectlyToolCallID st ≠ "" → toolsPostBranchCondition st = Ok nodeKeyDirectReturn.
Proof.
  intros H. unfold toolsPostBranchCondition.
  by rewrite marker_nonempty, (proj2 (str_empty_false _) H).
Qed.

Lemma toolsPostBranchCondition_empty (st : state) :
  ReturnDirectlyToolCallID st = "" → toolsPostBranchCondition st = Ok nodeKeyModel.
Proof. intros H. unfold toolsPostBranchCondition. by rewrite H. Qed.

Lemma configured_size (set : gset string) :
  set ≠ ∅ → bool_decide (0 < size set) = true.
Proof.
  intros H. apply bool_decide_eq_true_2.
  destruct (decide (size set = 0)) as [Hz|]; [|lia].
  apply size_empty_inv in Hz. by apply leibniz_equiv in Hz.
Qed.

Lemma successor_model (config : AgentConfig) (chatModel : ChatModel) (toolsNode : ToolsNode)
    (sr : StreamReader) (st : state) :
  successor (buildGraph config chatModel toolsNode) nodeKeyModel (VStream sr) st
  = match toolCallChecker config sr with
    | Ok true => Ok nodeKeyTools
    | Ok false => Ok END
    | Err e => Err (ErrBranchRun nodeKeyModel e)
    end.
Proof.
  unfold buildGraph, buildReturnDirectly.
  case_bool_decide; unfold successor; simpl; unfold modelPostBranchCondition;
    destruct (toolCallChecker config sr) as [[|]|e]; reflexivity.
Qed.

Lemma successor_tools_configured (config : AgentConfig) (chatModel : ChatModel)
    (toolsNode : ToolsNode) (out : Val) (st : state) :
  ToolReturnDirectly config ≠ ∅ →
  successor (buildGraph config chatModel toolsNode) nodeKeyTools out st
  = Ok (if str_empty (ReturnDirectlyToolCallID st) then nodeKeyModel else nodeKeyDirectReturn).
Proof.
  intros Hset. unfold buildGraph, buildReturnDirectly.
  rewrite configured_size by done. unfold successor; simpl.
  unfold toolsPostBranchCondition. rewrite marker_nonempty.
  by destruct (str_empty (ReturnDirectlyToolCallID st)).
Qed.

Lemma successor_direct_return (config : AgentConfig) (chatModel : ChatModel)
    (toolsNode : ToolsNode) (out : Val) (st : state) :
  ToolReturnDirectly config ≠ ∅ →
  successor (buildGraph config chatModel toolsNode) nodeKeyDirectReturn out st = Ok END.
Proof.
  intros Hset. unfold buildGraph, buildReturnDirectly.
  by rewrite configured_size by done.
Qed.

Lemma successor_tools_plain (config : AgentConfig) (chatModel : ChatModel)
    (toolsNode : ToolsNode) (out : Val) (st : state) :
  ToolReturnDirectly config = ∅ →
  successor (buildGraph config chatModel toolsNode) nodeKeyTools out st = Ok nodeKeyModel.
Proof.
  intros Hset. unfold buildGraph. rewrite Hset, size_empty.
  by rewrite bool_decide_eq_false_2 by lia.
Qed.

Lemma runSteps_END {S : Type} (g : Graph S) (fuel step : nat) (v : Val) (st : S) :
  runSteps g fuel step END v st = (Ok v, []).
Proof. by destruct fuel. Qed.


(** ** The one-time registration of the state type *)

Lemma registerState_done (ext : externals) (p : process) :
  registerStateOnce p = true → registerState ext p = (None, p).
Proof. intros H. unfold registerState. by rewrite H. Qed.

Lemma NewAgent_done (ext : externals) (config : AgentConfig) (p : process) :
  registerStateOnce p = true → NewAgent ext config p = (newAgentBuild ext config, p).
Proof. intros H. unfold NewAgent. by rewrite registerState_done. Qed.

Lemma NewAgents_done (ext : externals) (configs : list AgentConfig) (p : process) :
  registerStateOnce p = true →
  NewAgents ext configs p = (newAgentBuild ext <$> configs, p).
Proof.
  intros H. induction configs as [|config configs IH]; [done|].
  simpl. rewrite NewAgent_done by done. by rewrite IH.
Qed.

Lemma NewAgent_sets_done (ext : externals) (config : AgentConfig) (p : process) :
  registerStateOnce (NewAgent ext config p).2 = true
  ∧ registerCalls (NewAgent ext config p).2
    = if registerStateOnce p then registerCalls p else S (registerCalls p).
Proof.
  unfold NewAgent, registerState.
  destruct (registerStateOnce p) eqn:Hd; simpl.
  - by rewrite Hd.
  - by destruct (RegisterSerializableType ext _ _).
Qed.

(** C10: the registration is attempted at most once in a process; when that
    attempt fails, the first [NewAgent] returns its error, and every later
    [NewAgent] finds no registration error and goes on to build the agent,
    with the type still unregistered and no further attempt made. *)
Theorem registration_attempted_once (ext : externals) (p : process) :
  (∀ configs, registerCalls (NewAgents ext configs p).2 ≤ S (registerCalls p)
     ∧ (registerStateOnce p = true →
        registerCalls (NewAgents ext configs p).2 = registerCalls p))
  ∧ (∀ config e,
       registerStateOnce p = false →
       RegisterSerializableType ext "_eino_react_state" (registeredTypes p) = Some e →
       ∃ p1, NewAgent ext config p = (Err e, p1)
         ∧ registerCalls p1 = S (registerCalls p)
         ∧ ∀ configs, ∃ p2,
             NewAgents ext configs p1 = (newAgentBuild ext <$> configs, p2)
             ∧ registeredTypes p2 = registeredTypes p
             ∧ registerCalls p2 = S (registerCalls p)).
Proof.
  split.
  - intros configs. split.
    + destruct configs as [|config configs]; [simpl; lia|].
      simpl. destruct (NewAgent ext config p) as [r p'] eqn:Hp.
      pose proof (NewAgent_sets_done ext config p) as [Hd Hc].
      rewrite Hp in Hd, Hc. simpl in Hd, Hc.
      rewrite NewAgents_done by done. simpl.
      destruct (registerStateOnce p); lia.
    + intros Hd. by rewrite NewAgents_done.
  - intros config e Hd He. eexists. split; [|split].
    + unfold NewAgent, registerState. rewrite Hd, He. reflexivity.
    + reflexivity.
    + intros configs. eexists. split; [by apply NewAgents_done|]. by split.
Qed.

Lemma registration_attempted_once_witness :
  registerStateOnce freshProcess = false
  ∧ RegisterSerializableType failingExternals "_eino_react_state"
      (registeredTypes freshProcess) = Some (ErrOther "type name taken")
  ∧ ∃ p1, NewAgent failingExternals plainConfig freshProcess
          = (Err (ErrOther "type name taken"), p1)
      ∧ registerCalls p1 = S (registerCalls freshProcess)
      ∧ ∀ configs, ∃ p2,
          NewAgents failingExternals configs p1
          = (newAgentBuild failingExternals <$> configs, p2)
          ∧ registeredTypes p2 = registeredTypes freshProcess
          ∧ registerCalls p2 = S (registerCalls freshProcess).
Proof.
  split; [reflexivity|]. split; [reflexivity|].
  exact (proj2 (registration_attempted_once failingExternals freshProcess)
           plainConfig (ErrOther "type name taken") eq_refl eq_refl).
Defined.

(** ** The history behind [modelPreHandle] as Go slices *)

Module GoSlicesFacts.
Import GoSlices.

Lemma alloc_fresh (h : Heap) (arr : list MessagePtr) :
  fst (alloc h arr) ∉ dom h.
Proof. unfold alloc. simpl. apply is_fresh. Qed.

Lemma read_take (h : Heap) (s : Slice) (arr : list MessagePtr) :
  h !! array s = Some arr → read h s = Some (take (len s) arr).
Proof. intros H. unfold read. by rewrite H. Qed.

Section append_facts.
Variable growslice : nat → nat → nat.
Hypothesis growslice_enough : ∀ c n, n ≤ growslice c n.

Lemma append_spec (s : Slice) (xs old : list MessagePtr) (h : Heap) :
  valid h s → read h s = Some old →
  ∃ s1 h1, append growslice s xs h = Some (s1, h1)
    ∧ valid h1 s1 ∧ read h1 s1 = Some (old ++ xs)
    ∧ len s1 = len s + length xs
    ∧ dom h ⊆ dom h1
    ∧ (∀ a, a ∈ dom h → a ≠ array s → h1 !! a = h !! a).
Proof.
  intros (arr & Harr & Hlen & Hle) Hread.
  rewrite (read_take _ _ _ Harr) in Hread. injection Hread as <-.
  unfold append. rewrite Harr. simpl.
  case_bool_decide as Hfit.
  - eexists _, _. split; [reflexivity|]. simpl.
    assert (Hl : length (take (len s) arr) = len s) by (rewrite length_take; lia).
    repeat split.
    + eexists. split; [apply lookup_insert_eq|]. split; [|simpl; lia].
      rewrite !length_app, Hl, length_drop. simpl. lia.
    + unfold read. simpl. rewrite lookup_insert_eq. simpl. f_equal.
      rewrite app_assoc. apply take_app_length'. rewrite length_app, Hl. lia.
    + rewrite dom_insert_L. set_solver.
    + intros a _ Hne. by rewrite lookup_insert_ne.
  - pose proof (alloc_fresh h (take (len s) arr ++ xs
                 ++ replicate (growslice (cap s) (len s + length xs) - (len s + length xs)) None))
      as Hfresh.
    unfold alloc in *. simpl in *.
    eexists _, _. split; [reflexivity|]. simpl.
    assert (Hl : length (take (len s) arr) = len s) by (rewrite length_take; lia).
    pose proof (growslice_enough (cap s) (len s + length xs)) as Hg.
    repeat split.
    + eexists. split; [apply lookup_insert_eq|]. split; [|simpl; lia].
      rewrite !length_app, Hl, length_replicate. simpl. lia.
    + unfold read. simpl. rewrite lookup_insert_eq. simpl. f_equal.
      rewrite app_assoc. apply take_app_length'. rewrite length_app, Hl. lia.
    + rewrite dom_insert_L. set_solver.
    + intros a Ha Hne. rewrite lookup_insert_ne; [done|]. intros <-. done.
Qed.

Lemma duplicate_spec (s1 : Slice) (content : list MessagePtr) (h1 : Heap) :
  valid h1 s1 → read h1 s1 = Some content →
  ∃ dup h3, copy (fst (make (len s1) h1)) s1 (snd (make (len s1) h1)) = Some h3
    ∧ dup = fst (make (len s1) h1)
    ∧ (array dup ∉ dom h1)
    ∧ read h3 dup = Some content
    ∧ read h3 s1 = Some content
    ∧ array s1 ∈ dom h3
    ∧ h3 !! array s1 = h1 !! array s1.
Proof.
  intros (arr & Harr & Hlen & Hle) Hread.
  rewrite (read_take _ _ _ Harr) in Hread. injection Hread as <-.
  pose proof (alloc_fresh h1 (replicate (len s1) None)) as Hfresh.
  unfold make, alloc in *. simpl in *.
  set (a := fresh (dom h1)) in *.
  assert (Hne : a ≠ array s1).
  { intros Heq. apply Hfresh. rewrite Heq. apply elem_of_dom. by eexists. }
  unfold copy. simpl. rewrite lookup_insert_eq. simpl.
  rewrite lookup_insert_ne by done. rewrite Harr. simpl.
  eexists _, _. split; [reflexivity|]. split; [reflexivity|]. simpl.
  rewrite Nat.min_id.
  repeat split.
  - done.
  - unfold read. simpl. rewrite lookup_insert_eq. simpl. f_equal.
    rewrite drop_ge by (rewrite length_replicate; lia).
    rewrite app_nil_r. apply take_ge. rewrite length_take. lia.
  - unfold read. rewrite lookup_insert_ne by done.
    rewrite lookup_insert_ne by done. by rewrite Harr.
  - rewrite !dom_insert_L. apply elem_of_union_r, elem_of_union_r.
    apply elem_of_dom. by eexists.
  - rewrite lookup_insert_ne by done. by rewrite lookup_insert_ne by done.
Qed.

Lemma modelPreHandleH_run (modifier : option ModifierH) (input old : list MessagePtr)
    (st : stateH) (h : Heap) :
  valid h (MessagesH st) → read h (MessagesH st) = Some old →
  (∀ f, modifier = Some f → framed f) →
  ∃ out st' h', modelPreHandleH growslice modifier input st h = Some (out, st', h')
    ∧ read h' (MessagesH st') = Some (old ++ input)
    ∧ ReturnDirectlyToolCallIDH st' = ReturnDirectlyToolCallIDH st
    ∧ match modifier with
      | None => out = MessagesH st'
      | Some f =>
          ∃ dup hd, array dup ≠ array (MessagesH st')
            ∧ read hd dup = Some (old ++ input)
            ∧ read hd (MessagesH st') = Some (old ++ input)
            ∧ f dup hd = (out, h')
      end.
Proof.
  intros Hvalid Hread Hframed.
  destruct (append_spec (MessagesH st) input old h Hvalid Hread)
    as (s1 & h1 & Happ & Hv1 & Hr1 & Hlen1 & Hdom1 & Hkeep1).
  unfold modelPreHandleH. rewrite Happ. cbn -[make copy].
  destruct modifier as [f|].
  - destruct (duplicate_spec s1 (old ++ input) h1 Hv1 Hr1)
      as (dup & h3 & Hcopy & Hdup & Hfresh & Hrd & Hrs & Hin3 & Hsame).
    destruct (make (len s1) h1) as [modifiedInput h2] eqn:Hmake.
    simpl in Hcopy, Hdup. subst dup. rewrite Hcopy. simpl.
    destruct (f modifiedInput h3) as [out h4] eqn:Hf.
    assert (Hne : array modifiedInput ≠ array s1).
    { intros Heq. apply Hfresh. rewrite Heq.
      destruct Hv1 as (arr & Harr & _). apply elem_of_dom. by eexists. }
    eexists _, _, _. split; [reflexivity|]. simpl. split; [|split; [done|]].
    + unfold read. rewrite (Hframed f eq_refl _ _ _ _ Hf (array s1)) by done.
      apply Hrs.
    + exists modifiedInput, h3. by repeat split.
  - eexists _, _, _. split; [reflexivity|]. by repeat split.
Qed.

End append_facts.

Lemma framed_clobber : framed clobber.
Proof.
  intros s h s' h' [= <- <-] a Hne _. by rewrite lookup_insert_ne.
Qed.

Lemma framed_pureModifier (g : MessageModifier) : framed (pureModifier g).
Proof.
  intros s h s' h'. unfold pureModifier, alloc. intros [= <- <-] a Hne Hin.
  rewrite lookup_insert_ne; [done|]. intros <-. by apply is_fresh in Hin.
Qed.

Lemma read_pureModifier (g : MessageModifier) (s : Slice) (h : Heap)
    (content : list MessagePtr) :
  read h s = Some content →
  read (snd (pureModifier g s h)) (fst (pureModifier g s h)) = Some (g content).
Proof.
  intros Hr. unfold pureModifier, alloc. rewrite Hr. simpl.
  unfold read. simpl. rewrite lookup_insert_eq. simpl. by rewrite firstn_all.
Qed.

End GoSlicesFacts.

(** The slices refine the sequences: what [modelPreHandleH] leaves in the heap
    is what [modelPreHandle] computes on the elements. *)
Lemma modelPreHandleH_refines (growslice : nat → nat → nat)
    (modifier : option MessageModifier) (input old : list MessagePtr)
    (st : GoSlices.stateH) (h : GoSlices.Heap) :
  (∀ c n, n ≤ growslice c n) →
  GoSlices.valid h (GoSlices.MessagesH st) →
  GoSlices.read h (GoSlices.MessagesH st) = Some old →
  ∃ out st' h',
    GoSlices.modelPreHandleH growslice (GoSlices.pureModifier <$> modifier) input st h
      = Some (out, st', h')
    ∧ let r := modelPreHandle modifier input
                 {| Messages := old;
                    ReturnDirectlyToolCallID := GoSlices.ReturnDirectlyToolCallIDH st |} in
      GoSlices.read h' out = Some (fst r)
      ∧ GoSlices.read h' (GoSlices.MessagesH st') = Some (Messages (snd r))
      ∧ GoSlices.ReturnDirectlyToolCallIDH st' = ReturnDirectlyToolCallID (snd r).
Proof.
  intros Hgrow Hvalid Hread.
  destruct (GoSlicesFacts.modelPreHandleH_run growslice Hgrow
              (GoSlices.pureModifier <$> modifier) input old st h Hvalid Hread)
    as (out & st' & h' & Hrun & Hhist & Hmark & Hout).
  { intros f Hf. destruct modifier as [g|]; [|done]. injection Hf as <-.
    apply GoSlicesFacts.framed_pureModifier. }
  exists out, st', h'. split; [done|]. simpl.
  destruct modifier as [g|]; simpl in *.
  - destruct Hout as (dup & hd & _ & Hdup & _ & Hf).
    repeat split; try done.
    pose proof (GoSlicesFacts.read_pureModifier g dup hd _ Hdup) as Hp.
    by rewrite Hf in Hp.
  - subst out. by repeat split.
Qed.

(** C7: the pre-handler of the model node appends the input to the canonical
    history; without a modifier it returns the canonical history itself, and
    with one it applies the modifier to a duplicate in an array of its own, so
    that whatever the modifier writes or returns, the history kept in the
    state is the sequence it was after the append. *)
Theorem modelPreHandle_keeps_history (growslice : nat → nat → nat)
    (modifier : option GoSlices.ModifierH) (input old : list MessagePtr)
    (st : GoSlices.stateH) (h : GoSlices.Heap) :
  (∀ c n, n ≤ growslice c n) →
  GoSlices.valid h (GoSlices.MessagesH st) →
  GoSlices.read h (GoSlices.MessagesH st) = Some old →
  (∀ f, modifier = Some f → GoSlices.framed f) →
  ∃ out st' h',
    GoSlices.modelPreHandleH growslice modifier input st h = Some (out, st', h')
    ∧ GoSlices.read h' (GoSlices.MessagesH st') = Some (old ++ input)
    ∧ GoSlices.ReturnDirectlyToolCallIDH st' = GoSlices.ReturnDirectlyToolCallIDH st
    ∧ match modifier with
      | None => out = GoSlices.MessagesH st'
      | Some f =>
          ∃ dup hd, GoSlices.array dup ≠ GoSlices.array (GoSlices.MessagesH st')
            ∧ GoSlices.read hd dup = Some (old ++ input)
            ∧ GoSlices.read hd (GoSlices.MessagesH st') = Some (old ++ input)
            ∧ f dup hd = (out, h')
      end.
Proof.
  intros Hgrow Hvalid Hread Hframed.
  by apply GoSlicesFacts.modelPreHandleH_run.
Qed.

Lemma modelPreHandle_keeps_history_witness :
  (∀ c n, n ≤ exactGrow c n)
  ∧ GoSlices.valid sampleHeap (GoSlices.MessagesH sampleStateH)
  ∧ GoSlices.read sampleHeap (GoSlices.MessagesH sampleStateH) = Some []
  ∧ GoSlices.framed GoSlices.clobber
  ∧ ∃ out st' h',
      GoSlices.modelPreHandleH exactGrow (Some GoSlices.clobber) userTurn sampleStateH sampleHeap
        = Some (out, st', h')
      ∧ GoSlices.read h' (GoSlices.MessagesH st') = Some ([] ++ userTurn)
      ∧ GoSlices.read h' out = Some [None].
Proof.
  assert (Hgrow : ∀ c n, n ≤ exactGrow c n) by (intros c n; unfold exactGrow; lia).
  assert (Hvalid : GoSlices.valid sampleHeap (GoSlices.MessagesH sampleStateH)).
  { exists [None; None]. repeat split; simpl; lia. }
  assert (Hread : GoSlices.read sampleHeap (GoSlices.MessagesH sampleStateH) = Some [])
    by reflexivity.
  assert (Hframed : ∀ f, Some GoSlices.clobber = Some f → GoSlices.framed f).
  { intros f [= <-]. apply GoSlicesFacts.framed_clobber. }
  split; [exact Hgrow|]. split; [exact Hvalid|]. split; [exact Hread|].
  split; [apply GoSlicesFacts.framed_clobber|].
  destruct (modelPreHandle_keeps_history exactGrow (Some GoSlices.clobber) userTurn []
              sampleStateH sampleHeap Hgrow Hvalid Hread Hframed)
    as (out & st' & h' & Hrun & Hhist & _ & _).
  exists out, st', h'. split; [exact Hrun|]. split; [exact Hhist|].
  vm_compute in Hrun. injection Hrun as <- <- <-. reflexivity.
Defined.

(** ** Merging streamed tool calls *)

Lemma groupChunks_merged (chunks : list ToolCall) (i : nat) (merged : list ToolCall)
    (G : gmap Z (list nat)) :
  fst (groupChunks i chunks merged G) = merged ++ unindexed chunks.
Proof.
  revert i merged G. induction chunks as [|c rest IH]; intros i merged G; simpl.
  - by rewrite app_nil_r.
  - unfold unindexed. rewrite filter_cons.
    destruct (Index c) as [k|] eqn:Hc.
    + rewrite IH. by rewrite decide_False by done.
    + rewrite IH. rewrite decide_True by done. by rewrite <- app_assoc.
Qed.

Lemma groupChunks_lookup (chunks : list ToolCall) (i : nat) (merged : list ToolCall)
    (G : gmap Z (list nat)) (k : Z) :
  snd (groupChunks i chunks merged G) !! k
  = match positionsFrom i k chunks with
    | [] => G !! k
    | ps => Some (default [] (G !! k) ++ ps)
    end.
Proof.
  revert i merged G. induction chunks as [|c rest IH]; intros i merged G; simpl; [done|].
  destruct (Index c) as [k0|] eqn:Hc.
  - rewrite IH. destruct (decide (k0 = k)) as [->|Hne].
    + rewrite decide_True by done. rewrite lookup_insert_eq. simpl.
      destruct (positionsFrom (S i) k rest); [done|]. by rewrite <- app_assoc.
    + rewrite decide_False by congruence. by rewrite lookup_insert_ne.
  - rewrite IH. by rewrite decide_False by done.
Qed.

Lemma positionsFrom_fragments (pre rest : list ToolCall) (k : Z) :
  Forall2 (λ j c, (pre ++ rest) !! j = Some c)
    (positionsFrom (length pre) k rest) (fragmentsOf k rest).
Proof.
  revert pre. induction rest as [|c rest IH]; intros pre; simpl; [constructor|].
  unfold fragmentsOf. rewrite filter_cons.
  specialize (IH (pre ++ [c])).
  rewrite length_app, <- app_assoc in IH. simpl in IH.
  replace (length pre + 1) with (S (length pre)) in IH by lia.
  destruct (decide (Index c = Some k)); [|done].
  constructor; [|done]. by rewrite list_lookup_middle.
Qed.

Lemma append_nil_right (s : string) : s +:+ "" = s.
Proof.
  induction s as [|a s' IH]; [done|].
  change (String a (s' +:+ "") = String a s'). by rewrite IH.
Qed.

Lemma append_assoc_str (a b c : string) : (a +:+ b) +:+ c = a +:+ (b +:+ c).
Proof.
  induction a as [|x a' IH]; [done|].
  change (String x ((a' +:+ b) +:+ c) = String x (a' +:+ (b +:+ c))). by rewrite IH.
Qed.

Lemma concat_empty_sep_cons (x : string) (xs : list string) :
  String.concat "" (x :: xs) = x +:+ String.concat "" xs.
Proof.
  destruct xs as [|y ys]; [|done].
  change (x = x +:+ ""). by rewrite append_nil_right.
Qed.

Lemma mergeGroup_fold (chunks : list ToolCall) (idxs : list nat) (frs : list ToolCall)
    (res : ToolCall) (args : string) :
  Forall2 (λ j c, chunks !! j = Some c) idxs frs →
  mergeGroup chunks idxs res args = Some (mergeFold frs res args).
Proof.
  intros H. revert res args.
  induction H as [|j c idxs frs Hj _ IH]; intros res args; simpl; [done|].
  rewrite Hj. simpl. destruct (mergeChunk res args c) as [res' args'] eqn:Hm.
  simpl. apply IH.
Qed.

Lemma keepOr_last (init s : string) (l : list string) :
  keepOr (keepOr init s) (lastNonEmpty l) = keepOr init (lastNonEmpty (s :: l)).
Proof.
  simpl. unfold keepOr.
  destruct (str_empty (lastNonEmpty l)) eqn:E; [done | by rewrite E].
Qed.

Lemma mergeChunk_fields (res : ToolCall) (args : string) (c : ToolCall) :
  Index (fst (mergeChunk res args c)) = Index res
  ∧ ID (fst (mergeChunk res args c)) = keepOr (ID res) (ID c)
  ∧ Type_ (fst (mergeChunk res args c)) = keepOr (Type_ res) (Type_ c)
  ∧ Name (Function (fst (mergeChunk res args c)))
    = keepOr (Name (Function res)) (Name (Function c))
  ∧ snd (mergeChunk res args c) = args +:+ Arguments (Function c).
Proof.
  unfold mergeChunk, keepOr. cbn [fst snd].
  repeat split;
    try (destruct (str_empty (Name (Function c))), (str_empty (Type_ c)),
           (str_empty (ID c)); reflexivity).
  destruct (str_empty (Arguments (Function c))) eqn:He; [|done].
  apply str_empty_true in He. by rewrite He, append_nil_right.
Qed.

Lemma mergeFold_fields (frs : list ToolCall) (res : ToolCall) (args : string) :
  mergeFold frs res args
  = {| Index := Index res;
       ID := keepOr (ID res) (lastNonEmpty (ID <$> frs));
       Type_ := keepOr (Type_ res) (lastNonEmpty (Type_ <$> frs));
       Function :=
         {| Name := keepOr (Name (Function res))
                      (lastNonEmpty ((λ c, Name (Function c)) <$> frs));
            Arguments := args +:+ String.concat ""
                           ((λ c, Arguments (Function c)) <$> frs) |} |}.
Proof.
  revert res args. induction frs as [|c frs IH]; intros res args.
  - simpl. unfold setArguments, keepOr. simpl. by rewrite append_nil_right.
  - cbn [mergeFold]. rewrite IH.
    destruct (mergeChunk_fields res args c) as (Hi & Hid & Hty & Hn & Ha).
    rewrite Hi, Hid, Hty, Hn, Ha. rewrite !fmap_cons, !keepOr_last.
    by rewrite concat_empty_sep_cons, append_assoc_str.
Qed.

Lemma mergeGroup_request (chunks : list ToolCall) (k : Z) :
  mergeGroup chunks (positionsFrom 0 k chunks)
    {| Index := Some k; ID := ""; Type_ := "";
       Function := {| Name := ""; Arguments := "" |} |} ""
  = Some (mergedRequest lastNonEmpty k (fragmentsOf k chunks)).
Proof.
  rewrite (mergeGroup_fold chunks _ (fragmentsOf k chunks)).
  - rewrite mergeFold_fields. unfold mergedRequest, keepOr. simpl.
    f_equal. f_equal.
    + by destruct (lastNonEmpty (ID <$> fragmentsOf k chunks)).
    + by destruct (lastNonEmpty (Type_ <$> fragmentsOf k chunks)).
    + f_equal.
      by destruct (lastNonEmpty ((λ c, Name (Function c)) <$> fragmentsOf k chunks)).
  - apply (positionsFrom_fragments [] chunks k).
Qed.

Lemma mergeGroups_requests (chunks : list ToolCall) (groups : list (Z * list nat))
    (merged appended : list ToolCall) :
  Forall (λ g, snd g = positionsFrom 0 (fst g) chunks) groups →
  mergeGroups chunks groups merged appended
  = Some (merged
          ++ (repoint (last (fst <$> groups))
                <$> (appended
                     ++ ((λ k, mergedRequest lastNonEmpty k (fragmentsOf k chunks))
                           <$> (fst <$> groups))))).
Proof.
  intros H. revert appended.
  induction H as [|[k idxs] groups Hg _ IH]; intros appended.
  - cbn [mergeGroups fmap list_fmap last].
    change (repoint None) with (@id ToolCall).
    by rewrite app_nil_r, list_fmap_id.
  - simpl in Hg. subst idxs. cbn [mergeGroups]. rewrite mergeGroup_request.
    cbn [mbind option_bind]. rewrite IH. do 2 f_equal.
    rewrite !fmap_cons. cbn [fst].
    rewrite <- app_assoc. cbn [app]. rewrite !fmap_app, !fmap_cons.
    rewrite <- list_fmap_compose.
    destruct groups as [|g groups].
    + reflexivity.
    + rewrite fmap_cons, last_cons_cons.
      destruct (last (fst g :: (fst <$> groups))) as [kl|] eqn:Hl;
        [|by apply last_None in Hl].
      done.
Qed.

Lemma positions_nil_fragments (chunks : list ToolCall) (k : Z) :
  positionsFrom 0 k chunks = [] ↔ fragmentsOf k chunks = [].
Proof.
  pose proof (positionsFrom_fragments [] chunks k) as H. simpl in H.
  apply Forall2_length in H.
  split; intros Heq; rewrite Heq in H; simpl in H.
  - by destruct (fragmentsOf k chunks).
  - by destruct (positionsFrom 0 k chunks).
Qed.

Lemma concatToolCalls_groups (chunks : list ToolCall) :
  ∃ ks, concatToolCalls chunks
        = Some (unindexed chunks
                ++ ((λ k, setIndex (mergedRequest lastNonEmpty k (fragmentsOf k chunks))
                            (last ks)) <$> ks))
    ∧ NoDup ks
    ∧ ∀ k, k ∈ ks ↔ fragmentsOf k chunks ≠ [].
Proof.
  unfold concatToolCalls.
  destruct (groupChunks 0 chunks [] ∅) as [merged G] eqn:Hg.
  pose proof (groupChunks_merged chunks 0 [] ∅) as Hm.
  pose proof (groupChunks_lookup chunks 0 [] ∅) as Hl.
  rewrite Hg in Hm, Hl. simpl in Hm, Hl. subst merged.
  exists (fst <$> map_to_list G). split; [|split].
  - rewrite mergeGroups_requests.
    + cbn [app]. rewrite <- list_fmap_compose.
      destruct (last (fst <$> map_to_list G)) as [kl|] eqn:Hlast; [done|].
      apply last_None in Hlast. by rewrite Hlast.
    + apply Forall_forall. intros [k idxs] Hin.
      apply elem_of_map_to_list in Hin. rewrite Hl in Hin. simpl.
      rewrite lookup_empty in Hin.
      destruct (positionsFrom 0 k chunks); [done|]. by injection Hin as <-.
  - apply NoDup_fst_map_to_list.
  - intros k. rewrite <- positions_nil_fragments.
    rewrite list_elem_of_fmap. split.
    + intros ([k' idxs] & -> & Hin). apply elem_of_map_to_list in Hin.
      rewrite Hl, lookup_empty in Hin. simpl in *.
      by destruct (positionsFrom 0 k' chunks).
    + intros Hne. destruct (positionsFrom 0 k chunks) as [|p ps] eqn:Hp; [done|].
      exists (k, p :: ps). split; [done|]. apply elem_of_map_to_list.
      by rewrite Hl, Hp, lookup_empty.
Qed.





(** Where the non-empty values of a field agree, the last is the first. *)
Lemma lastNonEmpty_in (l : list string) :
  lastNonEmpty l ≠ "" → lastNonEmpty l ∈ l.
Proof.
  induction l as [|s l IH]; [done|]. simpl.
  destruct (str_empty (lastNonEmpty l)) eqn:E.
  - intros _. by left.
  - intros _. right. apply IH. by apply str_empty_false.
Qed.

Lemma firstNonEmpty_lastNonEmpty (l : list string) :
  (∀ a b, a ∈ l → b ∈ l → a ≠ "" → b ≠ "" → a = b) →
  firstNonEmpty l = lastNonEmpty l.
Proof.
  induction l as [|s l IH]; intros Hagree; [done|]. simpl.
  assert (IH' : firstNonEmpty l = lastNonEmpty l).
  { apply IH. intros a b Ha Hb. apply Hagree; by right. }
  destruct (str_empty s) eqn:Es, (str_empty (lastNonEmpty l)) eqn:El; try done.
  - apply str_empty_true in Es, El. by rewrite IH', El, Es.
  - apply str_empty_false in Es, El. apply Hagree; try done; [by left|].
    right. by apply lastNonEmpty_in.
Qed.


(** ** Runs of the agent's graph *)

Lemma runSteps_cons {S : Type} (g : Graph S) (fuel step : nat) (key : string) (v : Val)
    (st : S) (res : result run_error Val) (e : TraceEntry) (tr : list TraceEntry) :
  runSteps g fuel step key v st = (res, e :: tr) →
  ∃ fuel' n out st',
    fuel = Datatypes.S fuel' ∧ assoc key (nodes g) = Some n
    ∧ n step v st = Ok (out, st') ∧ e = mkEntry key v out
    ∧ ((∃ err, successor g key out st' = Err err ∧ res = Err err ∧ tr = [])
       ∨ (∃ next, successor g key out st' = Ok next
            ∧ runSteps g fuel' (Datatypes.S step) next out st' = (res, tr))).
Proof.
  destruct fuel as [|fuel']; simpl.
  - destruct (String.eqb key END); intros [=].
  - destruct (String.eqb key END); [intros [=]|].
    destruct (assoc key (nodes g)) as [n|]; [|intros [=]].
    destruct (n step v st) as [[out st']|err] eqn:Hn; [|intros [=]].
    destruct (successor g key out st') as [next|err] eqn:Hs.
    + destruct (runSteps g fuel' (Datatypes.S step) next out st') as [r tr'] eqn:Hr.
      intros [= <- <- <-]. exists fuel', n, out, st'.
      repeat split; try done. right. by exists next.
    + intros [= <- <- <-]. exists fuel', n, out, st'.
      repeat split; try done. left. by exists err.
Qed.

Lemma runSteps_suffix {S : Type} (g : Graph S) (pre : list TraceEntry) :
  ∀ fuel step key v st res e post,
    runSteps g fuel step key v st = (res, pre ++ e :: post) →
    ∃ fuel' step' st',
      fuel = length pre + fuel'
      ∧ runSteps g fuel' step' (te_node e) (te_in e) st' = (res, e :: post).
Proof.
  induction pre as [|e0 pre IH]; intros fuel step key v st res e post Hrun.
  - simpl in Hrun. pose proof Hrun as Hrun'.
    apply runSteps_cons in Hrun as (fuel' & n & out & st' & _ & _ & _ & -> & _).
    exists fuel, step, st. by split.
  - rewrite <- app_comm_cons in Hrun.
    apply runSteps_cons in Hrun
      as (fuel' & n & out & st' & -> & _ & _ & _ & [(err & _ & _ & Hnil)|(next & _ & Hrest)]).
    + by destruct pre.
    + apply IH in Hrest as (fuel'' & step' & st'' & -> & Hrest).
      exists fuel'', step', st''. split; [simpl; lia | done].
Qed.

Lemma nodes_model (config : AgentConfig) (chatModel : ChatModel) (toolsNode : ToolsNode) :
  assoc nodeKeyModel (nodes (buildGraph config chatModel toolsNode))
  = Some (chatModelNode chatModel (messageModifier config)).
Proof. unfold buildGraph, buildReturnDirectly. by case_bool_decide. Qed.

Lemma nodes_tools (config : AgentConfig) (chatModel : ChatModel) (toolsNode : ToolsNode) :
  assoc nodeKeyTools (nodes (buildGraph config chatModel toolsNode))
  = Some (toolsNodeImpl toolsNode (ToolReturnDirectly config)).
Proof. unfold buildGraph, buildReturnDirectly. by case_bool_decide. Qed.

Lemma nodes_direct_return (config : AgentConfig) (chatModel : ChatModel)
    (toolsNode : ToolsNode) :
  ToolReturnDirectly config ≠ ∅ →
  assoc nodeKeyDirectReturn (nodes (buildGraph config chatModel toolsNode))
  = Some directReturnNode.
Proof.
  intros H. unfold buildGraph, buildReturnDirectly. by rewrite configured_size.
Qed.

Lemma successor_start (config : AgentConfig) (chatModel : ChatModel) (toolsNode : ToolsNode)
    (v : Val) (st : state) :
  successor (buildGraph config chatModel toolsNode) START v st = Ok nodeKeyModel.
Proof. unfold buildGraph, buildReturnDirectly. by case_bool_decide. Qed.

Lemma Invoke_runSteps (config : AgentConfig) (chatModel : ChatModel) (toolsNode : ToolsNode)
    (input : list MessagePtr) :
  Invoke (runnable (compileAgent config chatModel toolsNode)) input
  = match genLocalState config with
    | None => (Err ErrStateInit, [])
    | Some st0 =>
        runSteps (buildGraph config chatModel toolsNode)
          (stepBound (runnable (compileAgent config chatModel toolsNode))) 0
          nodeKeyModel (VMsgs input) st0
    end.
Proof.
  unfold Invoke. simpl. destruct (genLocalState config) as [st0|]; [|done].
  by rewrite successor_start.
Qed.

Lemma toolsNodeImpl_ok (toolsNode : ToolsNode) (set : gset string) (step : nat)
    (sr : StreamReader) (st : state) (out : Val) (st' : state) (am : Message) :
  toolsNodeImpl toolsNode set step (VStream sr) st = Ok (out, st') →
  concatStream sr = Ok am →
  ∃ batch, out = VMsgs batch ∧ toolsNode step (Some am) = Ok batch
    ∧ st' = {| Messages := Messages st ++ [Some am];
               ReturnDirectlyToolCallID := getReturnDirectlyToolCallID am set |}.
Proof.
  unfold toolsNodeImpl. intros Hrun Hc. rewrite Hc in Hrun. simpl in Hrun.
  destruct (toolsNode step (Some am)) as [batch|err]; simpl in Hrun; [|done].
  injection Hrun as <- <-. by exists batch.
Qed.

(** A stage of the model that produced [sr], and what the run makes of it. *)
Lemma run_model_turn (config : AgentConfig) (chatModel : ChatModel) (toolsNode : ToolsNode)
    (fuel step : nat) (v : Val) (st st' : state) (sr : StreamReader) :
  chatModelNode chatModel (messageModifier config) step v st = Ok (VStream sr, st') →
  runSteps (buildGraph config chatModel toolsNode) (S fuel) step nodeKeyModel v st
  = match toolCallChecker config sr with
    | Ok true =>
        (fst (runSteps (buildGraph config chatModel toolsNode) fuel (S step)
                nodeKeyTools (VStream sr) st'),
         mkEntry nodeKeyModel v (VStream sr)
         :: snd (runSteps (buildGraph config chatModel toolsNode) fuel (S step)
                   nodeKeyTools (VStream sr) st'))
    | Ok false => (Ok (VStream sr), [mkEntry nodeKeyModel v (VStream sr)])
    | Err e => (Err (ErrBranchRun nodeKeyModel e), [mkEntry nodeKeyModel v (VStream sr)])
    end.
Proof.
  intros Hn. cbn [runSteps].
  replace (String.eqb nodeKeyModel END) with false by reflexivity.
  rewrite nodes_model, Hn, successor_model.
  destruct (toolCallChecker config sr) as [[|]|e]; [|by rewrite runSteps_END|done].
  by destruct (runSteps _ fuel (S step) nodeKeyTools (VStream sr) st').
Qed.

(** C5: after the model, the checker's [true] routes to the tools stage, its
    [false] ends the run with the model's output as the final output, and its
    error aborts the run; after the tools, with direct return configured, a
    non-empty marker routes to the direct-return stage and from there to the
    end, an empty marker routes back to the model; without direct return the
    tools stage always routes back to the model. *)
Theorem branch_routing (config : AgentConfig) (chatModel : ChatModel)
    (toolsNode : ToolsNode) (st : state) :
  (∀ sr, toolCallChecker config sr = Ok true →
     successor (buildGraph config chatModel toolsNode) nodeKeyModel (VStream sr) st
     = Ok nodeKeyTools)
  ∧ (∀ sr, toolCallChecker config sr = Ok false →
     successor (buildGraph config chatModel toolsNode) nodeKeyModel (VStream sr) st = Ok END
     ∧ ∀ fuel step v st0,
         chatModelNode chatModel (messageModifier config) step v st0 = Ok (VStream sr, st) →
         fst (runSteps (buildGraph config chatModel toolsNode) (S fuel) step
                nodeKeyModel v st0) = Ok (VStream sr))
  ∧ (∀ sr e, toolCallChecker config sr = Err e →
     successor (buildGraph config chatModel toolsNode) nodeKeyModel (VStream sr) st
     = Err (ErrBranchRun nodeKeyModel e)
     ∧ ∀ fuel step v st0,
         chatModelNode chatModel (messageModifier config) step v st0 = Ok (VStream sr, st) →
         fst (runSteps (buildGraph config chatModel toolsNode) (S fuel) step
                nodeKeyModel v st0) = Err (ErrBranchRun nodeKeyModel e))
  ∧ (ToolReturnDirectly config ≠ ∅ → ∀ out,
       (ReturnDirectlyToolCallID st ≠ "" →
          successor (buildGraph config chatModel toolsNode) nodeKeyTools out st
          = Ok nodeKeyDirectReturn)
       ∧ successor (buildGraph config chatModel toolsNode) nodeKeyDirectReturn out st = Ok END
       ∧ (ReturnDirectlyToolCallID st = "" →
          successor (buildGraph config chatModel toolsNode) nodeKeyTools out st
          = Ok nodeKeyModel))
  ∧ (ToolReturnDirectly config = ∅ → ∀ out,
       successor (buildGraph config chatModel toolsNode) nodeKeyTools out st
       = Ok nodeKeyModel).
Proof.
  split; [|split; [|split; [|split]]].
  - intros sr H. by rewrite successor_model, H.
  - intros sr H. split; [by rewrite successor_model, H|].
    intros fuel step v st0 Hn. by rewrite (run_model_turn _ _ _ _ _ _ _ _ _ Hn), H.
  - intros sr e H. split; [by rewrite successor_model, H|].
    intros fuel step v st0 Hn. by rewrite (run_model_turn _ _ _ _ _ _ _ _ _ Hn), H.
  - intros Hset out. split; [|split].
    + intros Hm. rewrite successor_tools_configured by done.
      by rewrite (proj2 (str_empty_false _) Hm).
    + by apply successor_direct_return.
    + intros Hm. rewrite successor_tools_configured by done. by rewrite Hm.
  - intros Hset out. by apply successor_tools_plain.
Qed.

Lemma branch_routing_witness :
  toolCallChecker plainConfig [Chunk callFragment] = Ok true
  ∧ successor (buildGraph plainConfig (λ _ _, Ok []) (λ _ _, Ok []))
      nodeKeyModel (VStream [Chunk callFragment]) emptyState = Ok nodeKeyTools
  ∧ ToolReturnDirectly plainConfig = ∅
  ∧ successor (buildGraph plainConfig (λ _ _, Ok []) (λ _ _, Ok []))
      nodeKeyTools (VMsgs []) emptyState = Ok nodeKeyModel.
Proof.
  assert (Hc : toolCallChecker plainConfig [Chunk callFragment] = Ok true) by reflexivity.
  split; [exact Hc|].
  split; [exact (proj1 (branch_routing plainConfig (λ _ _, Ok []) (λ _ _, Ok []) emptyState)
                   [Chunk callFragment] Hc)|].
  split; [reflexivity|].
  exact (proj2 (proj2 (proj2 (proj2
           (branch_routing plainConfig (λ _ _, Ok []) (λ _ _, Ok []) emptyState))))
           eq_refl (VMsgs [])).
Defined.


(** The run from the tools stage on, when the marker it records is non-empty
    and the batch holds an answer to it. *)
Lemma run_direct_return (config : AgentConfig) (chatModel : ChatModel) (toolsNode : ToolsNode)
    (fuel step : nat) (sr : StreamReader) (st : state) (res : result run_error Val)
    (batch : list MessagePtr) (post : list TraceEntry) (am : Message) (tc : ToolCall)
    (before after : list ToolCall) (bpre brest : list MessagePtr) (m : Message) :
  runSteps (buildGraph config chatModel toolsNode) fuel step nodeKeyTools (VStream sr) st
    = (res, mkEntry nodeKeyTools (VStream sr) (VMsgs batch) :: post) →
  concatStream sr = Ok am →
  ToolCalls am = before ++ tc :: after →
  Forall (λ c, ¬ eligible (ToolReturnDirectly config) c) before →
  eligible (ToolReturnDirectly config) tc →
  batch = bpre ++ Some m :: brest →
  ToolCallID m = ID tc →
  Forall (λ p, ¬ answers (ID tc) p) bpre →
  ID tc ≠ "" →
  2 ≤ fuel →
  res = Ok (VMsg (Some m))
  ∧ post = [mkEntry nodeKeyDirectReturn (VMsgs batch) (VMsg (Some m))].
Proof.
  intros Hrun Hc Hcalls Hbefore Htc Hbatch Hid Hbpre Hne Hfuel.
  assert (Hset : ToolReturnDirectly config ≠ ∅).
  { intros Heq. unfold eligible in Htc. rewrite Heq in Htc. set_solver. }
  apply runSteps_cons in Hrun
    as (fuel' & n & out & st' & -> & Hn & Hexec & Hentry & Hnext).
  rewrite nodes_tools in Hn. injection Hn as <-.
  injection Hentry as <-.
  destruct (toolsNodeImpl_ok _ _ _ _ _ _ _ _ Hexec Hc) as (batch' & [= <-] & _ & ->).
  rewrite successor_tools_configured in Hnext by done. simpl in Hnext.
  rewrite (getReturnDirectlyToolCallID_first _ _ _ _ _ Hcalls Hbefore Htc) in Hnext.
  rewrite (proj2 (str_empty_false _) Hne) in Hnext.
  destruct Hnext as [(err & [=] & _)|(next & [= <-] & Hrest)].
  destruct fuel' as [|fuel'']; [lia|].
  cbn [runSteps] in Hrest.
  replace (String.eqb nodeKeyDirectReturn END) with false in Hrest by reflexivity.
  rewrite nodes_direct_return in Hrest by done.
  assert (Hd : directReturn batch
                 {| Messages := Messages st ++ [Some am];
                    ReturnDirectlyToolCallID := ID tc |} = Ok m).
  { rewrite Hbatch. by apply directReturn_first. }
  rewrite (directReturnNode_answer _ _ _ _ Hd) in Hrest.
  rewrite successor_direct_return in Hrest by done.
  rewrite runSteps_END in Hrest. by injection Hrest as <- <-.
Qed.

(** C1, as amended: when the tools stage ran on an assistant message whose
    first request for a direct-return tool has a non-empty ID, its batch holds
    an answer to that ID, and the step bound leaves a step for the stage that
    follows, then the first such answer is the run's final output and the only
    stage executed after the tools is the direct-return extraction: the model
    is not invoked again. *)
Theorem direct_return_is_final (config : AgentConfig) (chatModel : ChatModel)
    (toolsNode : ToolsNode) (input : list MessagePtr)
    (pre post : list TraceEntry) (sr : StreamReader) (batch : list MessagePtr)
    (am : Message) (before after : list ToolCall) (tc : ToolCall)
    (bpre brest : list MessagePtr) (m : Message) :
  snd (Invoke (runnable (compileAgent config chatModel toolsNode)) input)
    = pre ++ mkEntry nodeKeyTools (VStream sr) (VMsgs batch) :: post →
  concatStream sr = Ok am →
  ToolCalls am = before ++ tc :: after →
  Forall (λ c, ¬ eligible (ToolReturnDirectly config) c) before →
  eligible (ToolReturnDirectly config) tc →
  batch = bpre ++ Some m :: brest →
  ToolCallID m = ID tc →
  Forall (λ p, ¬ answers (ID tc) p) bpre →
  ID tc ≠ "" →
  length pre + 2 ≤ stepBound (runnable (compileAgent config chatModel toolsNode)) →
  fst (Invoke (runnable (compileAgent config chatModel toolsNode)) input)
    = Ok (VMsg (Some m))
  ∧ post = [mkEntry nodeKeyDirectReturn (VMsgs batch) (VMsg (Some m))]
  ∧ Forall (λ e, te_node e ≠ nodeKeyModel) post.
Proof.
  intros Htrace Hc Hcalls Hbefore Htc Hbatch Hid Hbpre Hne Hbound.
  rewrite Invoke_runSteps in Htrace |- *.
  destruct (genLocalState config) as [st0|]; [|by destruct pre].
  destruct (runSteps _ _ _ _ _ _) as [res trace] eqn:Hrun.
  simpl in Htrace |- *. subst trace.
  apply runSteps_suffix in Hrun as (fuel' & step' & st' & Hfuel & Hrun).
  simpl in Hrun.
  destruct (run_direct_return _ _ _ _ _ _ _ _ _ _ _ _ _ _ _ _ _
              Hrun Hc Hcalls Hbefore Htc Hbatch Hid Hbpre Hne ltac:(lia)) as [-> ->].
  repeat split. repeat constructor. discriminate.
Qed.

Lemma eligible_search (call : ToolCall) :
  Name (Function call) = "search" → eligible (ToolReturnDirectly (directConfig 0)) call.
Proof. intros H. unfold eligible. rewrite H. simpl. set_solver. Qed.

(** C1, as stated, fails in two ways: a direct-return request with an empty
    ID is not honoured (the run goes back to the model), and with a step bound
    of two the run fails with the step-bound error right after the tools
    stage. *)
Lemma direct_return_not_always_final :
  ¬ directReturnEndsRun (directConfig 0) (modelCallsOnce unnamedCall) toolsAnswerAll userTurn
  ∧ ¬ directReturnEndsRun (directConfig 2) (modelCallsOnce searchCallC1) toolsAnswerAll userTurn.
Proof.
  split; intros H.
  - destruct (H [firstTurnEntry unnamedCall] [secondTurnEntry unnamedCall]
                (requestTurn unnamedCall) (answerBatch unnamedCall)
                (assistantMsg "" [unnamedCall]) [] unnamedCall [] []
                (toolMsg "" "result") []) as [Hres _].
    + vm_compute. reflexivity.
    + reflexivity.
    + reflexivity.
    + constructor.
    + unfold eligible. simpl. set_solver.
    + reflexivity.
    + reflexivity.
    + constructor.
    + vm_compute in Hres. discriminate Hres.
  - destruct (H [firstTurnEntry searchCallC1] []
                (requestTurn searchCallC1) (answerBatch searchCallC1)
                (assistantMsg "" [searchCallC1]) [] searchCallC1 [] []
                (toolMsg "c1" "result") []) as [Hres _].
    + vm_compute. reflexivity.
    + reflexivity.
    + reflexivity.
    + constructor.
    + unfold eligible. simpl. set_solver.
    + reflexivity.
    + reflexivity.
    + constructor.
    + vm_compute in Hres. discriminate Hres.
Qed.

Lemma direct_return_is_final_witness :
  ID searchCallC1 ≠ ""
  ∧ 1 + 2 ≤ stepBound (runnable (compileAgent (directConfig 0)
                         (modelCallsOnce searchCallC1) toolsAnswerAll))
  ∧ fst (Invoke (runnable (compileAgent (directConfig 0)
                   (modelCallsOnce searchCallC1) toolsAnswerAll)) userTurn)
    = Ok (VMsg (Some (toolMsg "c1" "result")))
  ∧ Forall (λ e, te_node e ≠ nodeKeyModel)
      [mkEntry nodeKeyDirectReturn (VMsgs (answerBatch searchCallC1))
         (VMsg (Some (toolMsg "c1" "result")))].
Proof.
  assert (Hid : ID searchCallC1 ≠ "") by discriminate.
  assert (Hb : 1 + 2 ≤ stepBound (runnable (compileAgent (directConfig 0)
                         (modelCallsOnce searchCallC1) toolsAnswerAll)))
    by (vm_compute; lia).
  split; [exact Hid|]. split; [exact Hb|].
  destruct (direct_return_is_final (directConfig 0) (modelCallsOnce searchCallC1)
              toolsAnswerAll userTurn [firstTurnEntry searchCallC1]
              [mkEntry nodeKeyDirectReturn (VMsgs (answerBatch searchCallC1))
                 (VMsg (Some (toolMsg "c1" "result")))]
              (requestTurn searchCallC1) (answerBatch searchCallC1)
              (assistantMsg "" [searchCallC1]) [] [] searchCallC1 []
              [] (toolMsg "c1" "result")
              ltac:(vm_compute; reflexivity) eq_refl eq_refl
              ltac:(constructor) (eligible_search searchCallC1 eq_refl) eq_refl eq_refl
              ltac:(constructor) Hid Hb) as (Hres & _ & Hpost).
  split; [exact Hres | exact Hpost].
Defined.

Lemma chatModelNode_ok (chatModel : ChatModel) (modifier : option MessageModifier)
    (step : nat) (v : Val) (st : state) (out : Val) (st' : state) :
  chatModelNode chatModel modifier step v st = Ok (out, st') →
  ∃ sr, out = VStream sr.
Proof.
  unfold chatModelNode. destruct v as [input| |]; try done.
  destruct (modelPreHandle modifier input st) as [msgs st1].
  destruct (chatModel step msgs) as [sr|err]; simpl; [|done].
  intros [= <- <-]. by exists sr.
Qed.

Lemma reportsToolCall_tools (config : AgentConfig) (v out : Val) :
  reportsToolCall config (mkEntry nodeKeyTools v out).
Proof. intros Hk. discriminate Hk. Qed.

(** The loop without direct return, from the model or from the tools stage. *)
Lemma loop_plain (config : AgentConfig) (chatModel : ChatModel) (toolsNode : ToolsNode) :
  ToolReturnDirectly config = ∅ →
  ∀ fuel step key v st res trace,
    key = nodeKeyModel ∨ key = nodeKeyTools →
    runSteps (buildGraph config chatModel toolsNode) fuel step key v st = (res, trace) →
    (∀ out, res = Ok out →
       ∃ pre vin sr, trace = pre ++ [mkEntry nodeKeyModel vin (VStream sr)]
         ∧ out = VStream sr ∧ toolCallChecker config sr = Ok false
         ∧ Forall (reportsToolCall config) pre)
    ∧ (res = Err ErrExceedMaxSteps →
         length trace = fuel ∧ Forall (reportsToolCall config) trace)
    ∧ (∀ e, res = Err e →
         e = ErrExceedMaxSteps ∨ (∃ k e', e = ErrNodeRun k e')
         ∨ (∃ k e', e = ErrBranchRun k e')).
Proof.
  intros Hset. induction fuel as [|fuel IH]; intros step key v st res trace Hkey Hrun.
  - assert (Hr : (res, trace) = (Err ErrExceedMaxSteps, [])).
    { rewrite <- Hrun. by destruct Hkey as [-> | ->]. }
    injection Hr as -> ->. repeat split; try done. intros e [= <-]. by left.
  - destruct Hkey as [-> | ->].
    + cbn [runSteps] in Hrun.
      replace (String.eqb nodeKeyModel END) with false in Hrun by reflexivity.
      rewrite nodes_model in Hrun.
      destruct (chatModelNode chatModel (messageModifier config) step v st)
        as [[out st']|err] eqn:Hn.
      2:{ injection Hrun as <- <-. repeat split; try done.
          intros e [= <-]. right. left. by eexists _, _. }
      destruct (chatModelNode_ok _ _ _ _ _ _ _ Hn) as (sr & ->).
      rewrite successor_model in Hrun.
      destruct (toolCallChecker config sr) as [[|]|err] eqn:Hchk.
      * destruct (runSteps _ fuel (S step) nodeKeyTools (VStream sr) st')
          as [r tr] eqn:Hrest.
        injection Hrun as <- <-.
        destruct (IH _ _ _ _ _ _ (or_intror eq_refl) Hrest) as (Hok & Hexc & Herr).
        assert (Hrep : reportsToolCall config (mkEntry nodeKeyModel v (VStream sr))).
        { intros _. by exists sr. }
        split; [|split].
        -- intros out Hout. destruct (Hok out Hout) as (pre & vin & sr' & -> & ? & ? & ?).
           exists (mkEntry nodeKeyModel v (VStream sr) :: pre), vin, sr'.
           repeat split; try done. by constructor.
        -- intros Hr. destruct (Hexc Hr) as [Hlen Hall]. split; [simpl; lia|].
           by constructor.
        -- done.
      * rewrite runSteps_END in Hrun. injection Hrun as <- <-.
        split; [|split]; try done.
        intros out [= <-]. exists [], v, sr. by repeat split.
      * injection Hrun as <- <-. repeat split; try done.
        intros e [= <-]. right. right. by eexists _, _.
    + cbn [runSteps] in Hrun.
      replace (String.eqb nodeKeyTools END) with false in Hrun by reflexivity.
      rewrite nodes_tools in Hrun.
      destruct (toolsNodeImpl toolsNode (ToolReturnDirectly config) step v st)
        as [[out st']|err] eqn:Hn.
      2:{ injection Hrun as <- <-. repeat split; try done.
          intros e [= <-]. right. left. by eexists _, _. }
      rewrite successor_tools_plain in Hrun by done.
      destruct (runSteps _ fuel (S step) nodeKeyModel out st') as [r tr] eqn:Hrest.
      injection Hrun as <- <-.
      destruct (IH _ _ _ _ _ _ (or_introl eq_refl) Hrest) as (Hok & Hexc & Herr).
      split; [|split].
      * intros out' Hout. destruct (Hok out' Hout) as (pre & vin & sr' & -> & ? & ? & ?).
        exists (mkEntry nodeKeyTools v out :: pre), vin, sr'.
        repeat split; try done. constructor; [apply reportsToolCall_tools | done].
      * intros Hr. destruct (Hexc Hr) as [Hlen Hall]. split; [simpl; lia|].
        constructor; [apply reportsToolCall_tools | done].
      * done.
Qed.

Lemma default_checker_blocking (config : AgentConfig) (msg : Message) :
  StreamToolCallChecker config = None →
  toolCallChecker config [Chunk msg] = Ok (bool_decide (ToolCalls msg ≠ [])).
Proof.
  intros H. unfold toolCallChecker. rewrite H. simpl.
  destruct (ToolCalls msg) as [|c cs] eqn:Hc.
  - rewrite bool_decide_eq_false_2 by (simpl; lia).
    rewrite (bool_decide_eq_false_2 ([] ≠ [])) by (intros Hn; by apply Hn).
    by destruct (str_empty (Content msg)).
  - rewrite bool_decide_eq_true_2 by (simpl; lia).
    by rewrite bool_decide_eq_true_2.
Qed.

(** A model turn for which the checker reports no tool call is the last
    stage of the run, which ends normally with its output. *)
Lemma loop_plain_stops (config : AgentConfig) (chatModel : ChatModel) (toolsNode : ToolsNode)
    (fuel step : nat) (key : string) (v : Val) (st : state)
    (res : result run_error Val) (pre post : list TraceEntry) (e : TraceEntry)
    (sr : StreamReader) :
  runSteps (buildGraph config chatModel toolsNode) fuel step key v st
    = (res, pre ++ e :: post) →
  te_node e = nodeKeyModel → te_out e = VStream sr →
  toolCallChecker config sr = Ok false →
  post = [] ∧ res = Ok (VStream sr).
Proof.
  intros Hrun Hnode Hout Hchk.
  apply runSteps_suffix in Hrun as (fuel' & step' & st' & _ & Hrun).
  apply runSteps_cons in Hrun
    as (fuel'' & n & out & st'' & _ & _ & _ & He & Hnext).
  rewrite He in Hout. cbn [te_out] in Hout. subst out.
  rewrite Hnode, successor_model, Hchk in Hnext.
  destruct Hnext as [(err & [=] & _)|(next & [= <-] & Hrest)].
  rewrite runSteps_END in Hrest. by injection Hrest as <- <-.
Qed.

(** When as many stages ran as the bound allows and every model turn among
    them was reported as a tool call, a further stage is due: the run fails
    with the step-bound error. *)
Lemma loop_plain_exhausted (config : AgentConfig) (chatModel : ChatModel)
    (toolsNode : ToolsNode) :
  ToolReturnDirectly config = ∅ →
  ∀ fuel step key v st res trace,
    key = nodeKeyModel ∨ key = nodeKeyTools →
    runSteps (buildGraph config chatModel toolsNode) fuel step key v st = (res, trace) →
    length trace = fuel → Forall (reportsToolCall config) trace →
    res = Err ErrExceedMaxSteps.
Proof.
  intros Hset. induction fuel as [|fuel IH];
    intros step key v st res trace Hkey Hrun Hlen Hall.
  - assert (Hr : (res, trace) = (Err ErrExceedMaxSteps, [])).
    { rewrite <- Hrun. by destruct Hkey as [-> | ->]. }
    by injection Hr as -> ->.
  - destruct trace as [|e tr]; [done|]. injection Hlen as Hlen.
    apply Forall_cons in Hall as [He Hall].
    apply runSteps_cons in Hrun
      as (fuel' & n & out & st' & [= <-] & Hn & Hexec & -> & Hnext).
    destruct Hkey as [-> | ->].
    + destruct (He eq_refl) as (sr & Hout & Hchk). cbn [te_out] in Hout. subst out.
      rewrite successor_model, Hchk in Hnext.
      destruct Hnext as [(err & [=] & _)|(next & [= <-] & Hrest)].
      by apply (IH _ _ _ _ _ _ (or_intror eq_refl) Hrest).
    + rewrite successor_tools_plain in Hnext by done.
      destruct Hnext as [(err & [=] & _)|(next & [= <-] & Hrest)].
      by apply (IH _ _ _ _ _ _ (or_introl eq_refl) Hrest).
Qed.

(** With a model whose turns are always reported as tool calls and stages
    that never fail, the loop stops only for want of steps. *)
Lemma loop_plain_runs_out (config : AgentConfig) (chatModel : ChatModel)
    (toolsNode : ToolsNode) :
  ToolReturnDirectly config = ∅ →
  (∀ step msgs, ∃ sr am, chatModel step msgs = Ok sr
     ∧ toolCallChecker config sr = Ok true ∧ concatStream sr = Ok am) →
  (∀ step msg, ∃ batch, toolsNode step msg = Ok batch) →
  ∀ fuel step key v st,
    (key = nodeKeyModel ∧ ∃ input, v = VMsgs input)
    ∨ (key = nodeKeyTools ∧ ∃ sr am, v = VStream sr ∧ concatStream sr = Ok am) →
    fst (runSteps (buildGraph config chatModel toolsNode) fuel step key v st)
    = Err ErrExceedMaxSteps.
Proof.
  intros Hset Hmodel Htools. induction fuel as [|fuel IH]; intros step key v st Hkey.
  - by destruct Hkey as [[-> _] | [-> _]].
  - destruct Hkey as [[-> (input & ->)] | [-> (sr & am & -> & Hc)]].
    + cbn [runSteps].
      replace (String.eqb nodeKeyModel END) with false by reflexivity.
      rewrite nodes_model. unfold chatModelNode.
      destruct (modelPreHandle _ input st) as [msgs st1].
      destruct (Hmodel step msgs) as (sr & am & -> & Hchk & Hc). cbn [mbind result_bind].
      rewrite successor_model, Hchk.
      specialize (IH (S step) nodeKeyTools (VStream sr) st1
                    (or_intror (conj eq_refl (ex_intro _ sr (ex_intro _ am (conj eq_refl Hc)))))).
      by destruct (runSteps _ fuel _ _ _ _).
    + cbn [runSteps].
      replace (String.eqb nodeKeyTools END) with false by reflexivity.
      rewrite nodes_tools. unfold toolsNodeImpl. rewrite Hc. cbn [mbind result_bind].
      cbn [toolsNodePreHandle].
      destruct (Htools step (Some am)) as (batch & ->). cbn [mbind result_bind].
      rewrite successor_tools_plain by done.
      specialize (IH (S step) nodeKeyModel (VMsgs batch)
                    {| Messages := Messages st ++ [Some am];
                       ReturnDirectlyToolCallID :=
                         getReturnDirectlyToolCallID am (ToolReturnDirectly config) |}
                    (or_introl (conj eq_refl (ex_intro _ batch eq_refl)))).
      by destruct (runSteps _ fuel _ _ _ _).
Qed.

Lemma stepBound_positive (config : AgentConfig) (chatModel : ChatModel)
    (toolsNode : ToolsNode) :
  (0 ≤ MaxStep config)%Z →
  0 < stepBound (runnable (compileAgent config chatModel toolsNode)).
Proof.
  intros Hmax. unfold stepBound. cbn [runnable compileAgent r_maxRunSteps r_graph].
  destruct (MaxStep config =? 0)%Z eqn:Hz; [lia|].
  apply Z.eqb_neq in Hz. lia.
Qed.

Lemma genLocalState_some (config : AgentConfig) :
  (0 ≤ MaxStep config < 2 ^ 63 - 1)%Z →
  genLocalState config = Some {| Messages := []; ReturnDirectlyToolCallID := "" |}.
Proof.
  intros Hmax. unfold genLocalState, wrapInt.
  rewrite Z.mod_small by lia.
  destruct (_ <? 0)%Z eqn:Hneg; [|done]. apply Z.ltb_lt in Hneg. lia.
Qed.

(** C3, as amended: without direct return and with a step count that is not
    negative, a run ends normally exactly at the first model turn for which
    the configured checker reports no tool call, all earlier turns having
    been reported as tool calls, and such a turn always ends the run; it
    fails with the step-bound error exactly when the bound is used up by
    stages whose model turns were all reported as tool calls; any other
    failure is the failure of a stage, of a branch decision or of the state
    generator, which is not the step-bound error.  Under the default checker
    a one-fragment turn is reported as a tool call exactly when its message
    carries one.  With a model whose turns are always reported as tool calls
    the run fails with the step-bound error: for a bound of one at once, and
    for any bound when no stage fails. *)
Theorem loop_ends_on_checker_or_bound (config : AgentConfig) (chatModel : ChatModel)
    (toolsNode : ToolsNode) (input : list MessagePtr) :
  ToolReturnDirectly config = ∅ →
  (0 ≤ MaxStep config)%Z →
  (∀ out, fst (Invoke (runnable (compileAgent config chatModel toolsNode)) input) = Ok out →
     ∃ pre vin sr,
       snd (Invoke (runnable (compileAgent config chatModel toolsNode)) input)
         = pre ++ [mkEntry nodeKeyModel vin (VStream sr)]
       ∧ out = VStream sr ∧ toolCallChecker config sr = Ok false
       ∧ Forall (reportsToolCall config) pre)
  ∧ (fst (Invoke (runnable (compileAgent config chatModel toolsNode)) input)
       = Err ErrExceedMaxSteps →
     length (snd (Invoke (runnable (compileAgent config chatModel toolsNode)) input))
       = stepBound (runnable (compileAgent config chatModel toolsNode))
     ∧ Forall (reportsToolCall config)
         (snd (Invoke (runnable (compileAgent config chatModel toolsNode)) input)))
  ∧ (∀ e, fst (Invoke (runnable (compileAgent config chatModel toolsNode)) input) = Err e →
       e = ErrExceedMaxSteps ∨ (∃ k e', e = ErrNodeRun k e')
       ∨ (∃ k e', e = ErrBranchRun k e') ∨ e = ErrStateInit)
  ∧ (∀ msg, StreamToolCallChecker config = None →
       toolCallChecker config [Chunk msg] = Ok (bool_decide (ToolCalls msg ≠ [])))
  ∧ (MaxStep config = 1%Z →
     (∀ step msgs, ∃ sr, chatModel step msgs = Ok sr ∧ toolCallChecker config sr = Ok true) →
     fst (Invoke (runnable (compileAgent config chatModel toolsNode)) input)
       = Err ErrExceedMaxSteps)
  ∧ (∀ pre e post sr,
       snd (Invoke (runnable (compileAgent config chatModel toolsNode)) input)
         = pre ++ e :: post →
       te_node e = nodeKeyModel → te_out e = VStream sr →
       toolCallChecker config sr = Ok false →
       post = []
       ∧ fst (Invoke (runnable (compileAgent config chatModel toolsNode)) input)
         = Ok (VStream sr))
  ∧ (length (snd (Invoke (runnable (compileAgent config chatModel toolsNode)) input))
       = stepBound (runnable (compileAgent config chatModel toolsNode)) →
     Forall (reportsToolCall config)
       (snd (Invoke (runnable (compileAgent config chatModel toolsNode)) input)) →
     fst (Invoke (runnable (compileAgent config chatModel toolsNode)) input)
       = Err ErrExceedMaxSteps)
  ∧ ((MaxStep config < 2 ^ 63 - 1)%Z →
     (∀ step msgs, ∃ sr am, chatModel step msgs = Ok sr
        ∧ toolCallChecker config sr = Ok true ∧ concatStream sr = Ok am) →
     (∀ step msg, ∃ batch, toolsNode step msg = Ok batch) →
     fst (Invoke (runnable (compileAgent config chatModel toolsNode)) input)
       = Err ErrExceedMaxSteps).
Proof.
  intros Hset Hpos. pose proof (stepBound_positive config chatModel toolsNode Hpos) as Hbound.
  rewrite Invoke_runSteps.
  split; [|split; [|split; [|split; [|split; [|split; [|split]]]]]].
  - destruct (genLocalState config) as [st0|]; [|done].
    destruct (runSteps _ _ _ _ _ _) as [res trace] eqn:Hrun. simpl.
    by apply (loop_plain config chatModel toolsNode Hset _ _ _ _ _ _ _
                (or_introl eq_refl) Hrun).
  - destruct (genLocalState config) as [st0|]; [|done].
    destruct (runSteps _ _ _ _ _ _) as [res trace] eqn:Hrun. simpl.
    by apply (loop_plain config chatModel toolsNode Hset _ _ _ _ _ _ _
                (or_introl eq_refl) Hrun).
  - destruct (genLocalState config) as [st0|].
    + destruct (runSteps _ _ _ _ _ _) as [res trace] eqn:Hrun. simpl.
      intros e He.
      destruct (proj2 (proj2 (loop_plain config chatModel toolsNode Hset _ _ _ _ _ _ _
                  (or_introl eq_refl) Hrun)) e He) as [?|[?|?]]; auto.
    + intros e [= <-]. by repeat right.
  - intros msg. apply default_checker_blocking.
  - intros Hmax Hmodel.
    rewrite genLocalState_some by lia.
    unfold stepBound. simpl. rewrite Hmax. simpl.
    rewrite nodes_model. unfold chatModelNode.
    destruct (modelPreHandle _ input _) as [msgs st1].
    destruct (Hmodel 0 msgs) as (sr & -> & Hchk). simpl.
    by rewrite successor_model, Hchk.
  - destruct (genLocalState config) as [st0|]; [|by intros [|??] ????].
    destruct (runSteps _ _ _ _ _ _) as [res trace] eqn:Hrun. simpl.
    intros pre e post sr ->. by apply (loop_plain_stops _ _ _ _ _ _ _ _ _ _ _ _ _ Hrun).
  - destruct (genLocalState config) as [st0|];
      [|cbn [snd length]; intros Hlen; rewrite <- Hlen in Hbound; lia].
    destruct (runSteps _ _ _ _ _ _) as [res trace] eqn:Hrun. simpl.
    by apply (loop_plain_exhausted config chatModel toolsNode Hset _ _ _ _ _ _ _
                (or_introl eq_refl) Hrun).
  - intros Hmax Hmodel Htools. rewrite genLocalState_some by lia.
    apply (loop_plain_runs_out config chatModel toolsNode Hset Hmodel Htools).
    left. split; [done|]. by exists input.
Qed.

(** C3, as stated, fails: under the default checker a turn that streams text
    before its tool call ends the run normally although the turn carries a
    tool call. *)
Lemma loop_may_end_with_tool_call :
  ¬ endsOnlyWithoutToolCalls (configWith 0 ∅) modelTextFirst toolsAnswerAll userTurn.
Proof.
  intros H.
  destruct (H (VStream textFirstTurn)) as (sr & Hout & Hnone);
    [vm_compute; reflexivity|].
  injection Hout as <-. unfold textFirstTurn in Hnone.
  apply Forall_cons in Hnone as [_ Hnone]. apply Forall_cons in Hnone as [Hcall _].
  discriminate Hcall.
Qed.

Lemma loop_ends_on_checker_or_bound_witness :
  ToolReturnDirectly (configWith 1 ∅) = ∅
  ∧ (0 ≤ MaxStep (configWith 1 ∅))%Z
  ∧ MaxStep (configWith 1 ∅) = 1%Z
  ∧ fst (Invoke (runnable (compileAgent (configWith 1 ∅)
                   (modelAlwaysCalls searchCallC1) toolsAnswerAll)) userTurn)
    = Err ErrExceedMaxSteps
  ∧ (0 ≤ MaxStep (configWith 5 ∅) < 2 ^ 63 - 1)%Z
  ∧ fst (Invoke (runnable (compileAgent (configWith 5 ∅)
                   (modelAlwaysCalls searchCallC1) toolsAnswerAll)) userTurn)
    = Err ErrExceedMaxSteps.
Proof.
  assert (Hpos : (0 ≤ MaxStep (configWith 1 ∅))%Z) by (simpl; lia).
  assert (Hfive : (0 ≤ MaxStep (configWith 5 ∅) < 2 ^ 63 - 1)%Z) by (simpl; lia).
  split; [reflexivity|]. split; [exact Hpos|]. split; [reflexivity|].
  split; [|split; [exact Hfive|]].
  - apply (proj1 (proj2 (proj2 (proj2 (proj2
             (loop_ends_on_checker_or_bound (configWith 1 ∅) (modelAlwaysCalls searchCallC1)
                toolsAnswerAll userTurn eq_refl Hpos)))))); [reflexivity|].
    intros step msgs. exists (requestTurn searchCallC1). split; reflexivity.
  - apply (proj2 (proj2 (proj2 (proj2 (proj2 (proj2 (proj2
             (loop_ends_on_checker_or_bound (configWith 5 ∅) (modelAlwaysCalls searchCallC1)
                toolsAnswerAll userTurn eq_refl (proj1 Hfive))))))))).
    + exact (proj2 Hfive).
    + intros step msgs.
      exists (requestTurn searchCallC1), (assistantMsg "" [searchCallC1]).
      repeat split; reflexivity.
    + intros step msg. eexists. reflexivity.
Defined.

(** ** The scenarios of the specification, evaluated *)

(** Scenario A: a plain answer is the final output. *)
Example scenario_plain_answer :
  Generate (compileAgent (configWith 0 ∅) (λ _ _, Ok [Chunk plainAnswer]) toolsAnswerAll)
    userTurn = Ok (Some plainAnswer).
Proof. vm_compute. reflexivity. Qed.

(** Scenario B: a tool outside the direct-return set; the loop returns to the
    model, whose plain answer is the final output, after three stages. *)
Example scenario_tool_then_answer :
  Generate (compileAgent (configWith 0 ∅) (modelCallsOnce searchCallC1) toolsAnswerAll)
    userTurn = Ok (Some plainAnswer)
  ∧ te_node <$> snd (Invoke (runnable (compileAgent (configWith 0 ∅)
                       (modelCallsOnce searchCallC1) toolsAnswerAll)) userTurn)
    = [nodeKeyModel; nodeKeyTools; nodeKeyModel].
Proof. split; vm_compute; reflexivity. Qed.

(** Scenario C: the tool is in the direct-return set; its result is the final
    output and the model runs once. *)
Example scenario_direct_return :
  Generate (compileAgent (directConfig 0) (modelCallsOnce searchCallC1) toolsAnswerAll)
    userTurn = Ok (Some (toolMsg "c1" "result"))
  ∧ te_node <$> snd (Invoke (runnable (compileAgent (directConfig 0)
                       (modelCallsOnce searchCallC1) toolsAnswerAll)) userTurn)
    = [nodeKeyModel; nodeKeyTools; nodeKeyDirectReturn].
Proof. split; vm_compute; reflexivity. Qed.

(** Scenario E: the marker is set and the tools stage returns no result for
    it; the direct-return stage leaves the batch out and the run ends with an
    empty stream, which the blocking call cannot read into a message. *)
Example scenario_missing_result :
  Stream (compileAgent (directConfig 0) (modelCallsOnce searchCallC1) toolsAnswerNone)
    userTurn = Ok (VStream [])
  ∧ Generate (compileAgent (directConfig 0) (modelCallsOnce searchCallC1) toolsAnswerNone)
      userTurn = Err (ErrNodeRun END (ErrOther "stream reader is empty")).
Proof. split; vm_compute; reflexivity. Qed.

(** Without the duplicate, a modifier that overwrites its argument would reach
    the canonical history. *)
Example clobber_reaches_its_argument :
  GoSlices.read
    (snd (GoSlices.clobber (GoSlices.mkSlice 0 1 2) {[ 0 := [Some plainAnswer; None] ]}))
    (GoSlices.mkSlice 0 1 2) = Some [None].
Proof. vm_compute. reflexivity. Qed.

(** The agents [NewAgent] returns are the compiled graphs the statements on
    runs are about. *)
Lemma newAgentBuild_compiled (ext : externals) (config : AgentConfig) (agent : Agent) :
  newAgentBuild ext config = Ok agent →
  ∃ chatModel toolsNode, agent = compileAgent config chatModel toolsNode.
Proof.
  unfold newAgentBuild.
  destruct (genToolInfos _) as [infos|]; simpl; [|done].
  destruct (ChatModelWithTools _ _ _ _) as [chatModel|]; simpl; [|done].
  destruct (NewToolNode _ _) as [toolsNode|]; simpl; [|done].
  intros [= <-]. by exists chatModel, toolsNode.
Qed.

(** * Further properties of the package *)

(** ** The default checker on streams that may fail *)

#[local] Instance emptyFragment_dec (msg : Message) : Decision (emptyFragment msg).
Proof. unfold emptyFragment. apply _. Defined.

(** Every stream has one of four shapes: only empty fragments; empty
    fragments, then a read error; empty fragments, then a fragment with tool
    calls; empty fragments, then a fragment with content and no tool call. *)
Lemma stream_shape (sr : StreamReader) :
  (∃ pre, sr = Chunk <$> pre ∧ Forall emptyFragment pre)
  ∨ (∃ pre e rest, sr = (Chunk <$> pre) ++ RecvErr e :: rest ∧ Forall emptyFragment pre)
  ∨ (∃ pre f rest, sr = (Chunk <$> pre) ++ Chunk f :: rest ∧ Forall emptyFragment pre
       ∧ ToolCalls f ≠ [])
  ∨ (∃ pre f rest, sr = (Chunk <$> pre) ++ Chunk f :: rest ∧ Forall emptyFragment pre
       ∧ ToolCalls f = [] ∧ Content f ≠ "").
Proof.
  induction sr as [|item sr IH].
  - left. by exists [].
  - destruct item as [msg|e].
    + destruct (decide (ToolCalls msg = [])) as [Hc|Hc].
      * destruct (decide (Content msg = "")) as [Ht|Ht].
        -- assert (He : emptyFragment msg) by done.
           destruct IH as [(pre & -> & Hp)|[(pre & e & rest & -> & Hp)
             |[(pre & f & rest & -> & Hp & Hf)|(pre & f & rest & -> & Hp & Hf & Hg)]]].
           ++ left. exists (msg :: pre). split; [done | by constructor].
           ++ right; left. exists (msg :: pre), e, rest. split; [done | by constructor].
           ++ right; right; left. exists (msg :: pre), f, rest.
              split; [done|]. split; [by constructor | done].
           ++ right; right; right. exists (msg :: pre), f, rest.
              split; [done|]. split; [by constructor | done].
        -- right; right; right. by exists [], msg, sr.
      * right; right; left. by exists [], msg, sr.
    + right; left. by exists [], e, sr.
Qed.

Lemma firstChunk_on_shapes :
  (∀ pre, Forall emptyFragment pre →
     firstChunkStreamToolCallChecker (Chunk <$> pre) = Ok false)
  ∧ (∀ pre e rest, Forall emptyFragment pre →
     firstChunkStreamToolCallChecker ((Chunk <$> pre) ++ RecvErr e :: rest) = Err e)
  ∧ (∀ pre f rest, Forall emptyFragment pre → ToolCalls f ≠ [] →
     firstChunkStreamToolCallChecker ((Chunk <$> pre) ++ Chunk f :: rest) = Ok true)
  ∧ (∀ pre f rest, Forall emptyFragment pre → ToolCalls f = [] → Content f ≠ "" →
     firstChunkStreamToolCallChecker ((Chunk <$> pre) ++ Chunk f :: rest) = Ok false).
Proof.
  repeat split.
  - intros pre Hp. rewrite <- (app_nil_r (Chunk <$> pre)).
    by rewrite firstChunk_skip_prefix.
  - intros pre e rest Hp. by rewrite firstChunk_skip_prefix.
  - intros pre f rest Hp Hf. rewrite firstChunk_skip_prefix by done.
    simpl. by rewrite has_calls_true.
  - intros pre f rest Hp Hf Hc. rewrite firstChunk_skip_prefix by done.
    simpl. rewrite has_calls_false by done. by rewrite (proj2 (str_empty_false _) Hc).
Qed.

(** X1: the verdict of the default checker on any stream, read errors
    included, is decided by the first item that is not an empty fragment:
    [true] exactly when that item is a fragment with tool calls, the error
    exactly when it is that read error, [false] exactly when there is no such
    item or it is a fragment with content and no tool call. *)
Theorem firstChunk_verdicts (sr : StreamReader) :
  (firstChunkStreamToolCallChecker sr = Ok true ↔
     ∃ pre f rest, sr = (Chunk <$> pre) ++ Chunk f :: rest ∧ Forall emptyFragment pre
       ∧ ToolCalls f ≠ [])
  ∧ (∀ e, firstChunkStreamToolCallChecker sr = Err e ↔
     ∃ pre rest, sr = (Chunk <$> pre) ++ RecvErr e :: rest ∧ Forall emptyFragment pre)
  ∧ (firstChunkStreamToolCallChecker sr = Ok false ↔
     (∃ pre, sr = Chunk <$> pre ∧ Forall emptyFragment pre)
     ∨ (∃ pre f rest, sr = (Chunk <$> pre) ++ Chunk f :: rest ∧ Forall emptyFragment pre
          ∧ ToolCalls f = [] ∧ Content f ≠ "")).
Proof.
  destruct firstChunk_on_shapes as (Hnone & Herr & Htrue & Hfalse).
  split; [|split].
  - split.
    + intros Hrun.
      destruct (stream_shape sr) as [(pre & -> & Hp)|[(pre & e & rest & -> & Hp)
        |[Hshape|(pre & f & rest & -> & Hp & Hf & Hc)]]]; [| |done|].
      * by rewrite Hnone in Hrun.
      * by rewrite Herr in Hrun.
      * by rewrite Hfalse in Hrun.
    + intros (pre & f & rest & -> & Hp & Hf). by apply Htrue.
  - intros e. split.
    + intros Hrun.
      destruct (stream_shape sr) as [(pre & -> & Hp)|[(pre & e' & rest & -> & Hp)
        |[(pre & f & rest & -> & Hp & Hf)|(pre & f & rest & -> & Hp & Hf & Hc)]]].
      * by rewrite Hnone in Hrun.
      * rewrite Herr in Hrun by done. injection Hrun as ->. by exists pre, rest.
      * by rewrite Htrue in Hrun.
      * by rewrite Hfalse in Hrun.
    + intros (pre & rest & -> & Hp). by apply Herr.
  - split.
    + intros Hrun.
      destruct (stream_shape sr) as [Hshape|[(pre & e' & rest & -> & Hp)
        |[(pre & f & rest & -> & Hp & Hf)|Hshape]]]; [by left| | |by right].
      * by rewrite Herr in Hrun.
      * by rewrite Htrue in Hrun.
    + intros [(pre & -> & Hp)|(pre & f & rest & -> & Hp & Hf & Hc)];
        [by apply Hnone | by apply Hfalse].
Qed.

(** X2: the default checker exits early: once a fragment that is not empty
    in both fields has been read, nothing that follows it in the stream, a
    read error included, changes the verdict. *)
Theorem firstChunk_early_exit (pre : list Message) (f : Message) (rest rest' : StreamReader) :
  Forall emptyFragment pre → decisiveFragment f →
  firstChunkStreamToolCallChecker ((Chunk <$> pre) ++ Chunk f :: rest)
  = firstChunkStreamToolCallChecker ((Chunk <$> pre) ++ Chunk f :: rest').
Proof.
  intros Hp Hf. rewrite !firstChunk_skip_prefix by done. simpl.
  destruct (decide (ToolCalls f = [])) as [Hc|Hc].
  - rewrite has_calls_false by done.
    destruct (str_empty (Content f)) eqn:He; [|done].
    apply str_empty_true in He. by destruct Hf.
  - by rewrite has_calls_true.
Qed.

Lemma firstChunk_early_exit_witness :
  Forall emptyFragment [primingFragment] ∧ decisiveFragment callFragment
  ∧ firstChunkStreamToolCallChecker
      ((Chunk <$> [primingFragment]) ++ Chunk callFragment :: [RecvErr (ErrOther "reset")])
    = firstChunkStreamToolCallChecker
        ((Chunk <$> [primingFragment]) ++ Chunk callFragment :: []).
Proof.
  assert (Hp : Forall emptyFragment [primingFragment]) by (repeat constructor).
  assert (Hf : decisiveFragment callFragment) by (intros [Hc _]; discriminate Hc).
  split; [exact Hp|]. split; [exact Hf|].
  exact (firstChunk_early_exit [primingFragment] callFragment
           [RecvErr (ErrOther "reset")] [] Hp Hf).
Defined.

(** ** The full-consume checker against the default one *)

Lemma recvAll_error (pre : list Message) (e : error) (rest : StreamReader) :
  recvAll ((Chunk <$> pre) ++ RecvErr e :: rest) = Err e.
Proof.
  induction pre as [|m pre IH]; [done|].
  rewrite fmap_cons, <- app_comm_cons. cbn [recvAll]. by rewrite IH.
Qed.

(** X3: the full-consume checker reads the stream to its end before it
    decides: a read error anywhere in the stream is what it returns, whatever
    was read before it and whatever [schema.ConcatMessages] would answer.
    When the error comes after a decisive fragment the default checker has
    already returned its verdict and never meets it.  On a stream that ends
    without any fragment both checkers answer [false]. *)
Theorem fullConsume_reads_to_the_end
    (ConcatMessages : list Message → result error Message) :
  (∀ pre e rest,
     claudeStyleToolCallChecker ConcatMessages ((Chunk <$> pre) ++ RecvErr e :: rest)
     = Err e)
  ∧ (∀ pre f mid e rest, Forall emptyFragment pre → decisiveFragment f →
       firstChunkStreamToolCallChecker
         ((Chunk <$> pre) ++ Chunk f :: (Chunk <$> mid) ++ RecvErr e :: rest)
       = Ok (bool_decide (ToolCalls f ≠ []))
       ∧ claudeStyleToolCallChecker ConcatMessages
           ((Chunk <$> pre) ++ Chunk f :: (Chunk <$> mid) ++ RecvErr e :: rest)
         = Err e)
  ∧ firstChunkStreamToolCallChecker [] = Ok false
  ∧ claudeStyleToolCallChecker ConcatMessages [] = Ok false.
Proof.
  assert (Herr : ∀ pre e rest,
     claudeStyleToolCallChecker ConcatMessages ((Chunk <$> pre) ++ RecvErr e :: rest)
     = Err e).
  { intros pre e rest. unfold claudeStyleToolCallChecker. by rewrite recvAll_error. }
  split; [exact Herr|]. split; [|by split].
  intros pre f mid e rest Hp Hf. split.
  - rewrite firstChunk_skip_prefix by done. simpl.
    destruct (decide (ToolCalls f = [])) as [Hc|Hc].
    + rewrite has_calls_false by done.
      rewrite bool_decide_eq_false_2 by (intros Hn; by apply Hn).
      destruct (str_empty (Content f)) eqn:He; [|done].
      apply str_empty_true in He. by destruct Hf.
    + rewrite has_calls_true by done. by rewrite bool_decide_eq_true_2.
  - replace ((Chunk <$> pre) ++ Chunk f :: (Chunk <$> mid) ++ RecvErr e :: rest)
      with ((Chunk <$> (pre ++ f :: mid)) ++ RecvErr e :: rest).
    + apply Herr.
    + by rewrite fmap_app, fmap_cons, <- app_assoc.
Qed.

Lemma fullConsume_reads_to_the_end_witness :
  Forall emptyFragment [primingFragment] ∧ decisiveFragment callFragment
  ∧ firstChunkStreamToolCallChecker
      ((Chunk <$> [primingFragment]) ++ Chunk callFragment
         :: (Chunk <$> []) ++ RecvErr (ErrOther "reset") :: [])
    = Ok (bool_decide (ToolCalls callFragment ≠ []))
  ∧ claudeStyleToolCallChecker (λ _, Err ErrPanic)
      ((Chunk <$> [primingFragment]) ++ Chunk callFragment
         :: (Chunk <$> []) ++ RecvErr (ErrOther "reset") :: [])
    = Err (ErrOther "reset").
Proof.
  assert (Hp : Forall emptyFragment [primingFragment]) by (repeat constructor).
  assert (Hf : decisiveFragment callFragment) by (intros [Hc _]; discriminate Hc).
  split; [exact Hp|]. split; [exact Hf|].
  exact (proj1 (proj2 (fullConsume_reads_to_the_end (λ _, Err ErrPanic)))
           [primingFragment] callFragment [] (ErrOther "reset") [] Hp Hf).
Defined.

(** ** The tool catalogue *)

(** X4: [genToolInfos] succeeds exactly when every tool's [Info] succeeds,
    and then returns the descriptions in the order of the tools; it fails
    exactly with the error of the first tool whose [Info] fails, whatever the
    tools after it would answer. *)
Theorem genToolInfos_spec (tools : list BaseTool) :
  (∀ infos, genToolInfos tools = Ok infos ↔ Forall2 (λ t tl, Info t = Ok tl) tools infos)
  ∧ (∀ e, genToolInfos tools = Err e ↔
       ∃ pre t rest, tools = pre ++ t :: rest
         ∧ Forall (λ t', ∃ tl, Info t' = Ok tl) pre ∧ Info t = Err e).
Proof.
  induction tools as [|t tools [IHok IHerr]].
  - split.
    + intros infos. simpl. split.
      * intros [= <-]. constructor.
      * intros H. by inversion H.
    + intros e. split; [done|]. intros (pre & t & rest & Heq & _). by destruct pre.
  - split.
    + intros infos. simpl. destruct (Info t) as [tl|e] eqn:Ht; simpl.
      * destruct (genToolInfos tools) as [infos'|e] eqn:Hg; simpl.
        -- split.
           ++ intros [= <-]. constructor; [done|]. by apply IHok.
           ++ intros H. inversion H as [|? tl' ? infos'' Ht' Hrest]; subst.
              rewrite Ht in Ht'. injection Ht' as <-.
              apply IHok in Hrest. by injection Hrest as <-.
        -- split; [done|].
           intros H. inversion H as [|? tl' ? infos'' Ht' Hrest]; subst.
           by apply IHok in Hrest.
      * split; [done|]. intros H. inversion H as [|? tl' ? infos'' Ht' Hrest]; subst.
        by rewrite Ht in Ht'.
    + intros e. simpl. destruct (Info t) as [tl|e'] eqn:Ht; simpl.
      * destruct (genToolInfos tools) as [infos'|e'] eqn:Hg; simpl.
        -- split; [done|].
           intros (pre & t' & rest & Heq & Hpre & Hfail).
           destruct pre as [|p pre]; simpl in Heq; injection Heq as <- ->.
           ++ by rewrite Ht in Hfail.
           ++ apply Forall_cons in Hpre as [_ Hpre].
              assert (Herr : @Ok error _ infos' = Err e)
                by (apply IHerr; by exists pre, t', rest).
              discriminate Herr.
        -- split.
           ++ intros [= ->].
              destruct (proj1 (IHerr e) eq_refl) as (pre & t' & rest & -> & Hpre & Hfail).
              exists (t :: pre), t', rest. split; [done|].
              split; [|done]. constructor; [by exists tl | done].
           ++ intros (pre & t' & rest & Heq & Hpre & Hfail).
              destruct pre as [|p pre]; simpl in Heq; injection Heq as <- Heq.
              ** by rewrite Ht in Hfail.
              ** apply Forall_cons in Hpre as [_ Hpre].
                 assert (Herr : @Err _ (list ToolInfo) e' = Err e)
                   by (apply IHerr; by exists pre, t', rest).
                 by injection Herr as ->.
      * split.
        -- intros [= ->]. exists [], t, tools. by repeat split.
        -- intros (pre & t' & rest & Heq & Hpre & Hfail).
           destruct pre as [|p pre]; simpl in Heq; injection Heq as <- Heq.
           ++ rewrite Ht in Hfail. by injection Hfail as ->.
           ++ apply Forall_cons in Hpre as [(tl & Hp) _]. by rewrite Ht in Hp.
Qed.

(** ** The direct-return marker and its extraction *)

#[local] Instance eligible_dec (set : gset string) (tc : ToolCall) :
  Decision (eligible set tc).
Proof. unfold eligible. apply _. Defined.

#[local] Instance answers_dec (marker : string) (p : MessagePtr) :
  Decision (answers marker p).
Proof.
  destruct p as [m|].
  - destruct (decide (ToolCallID m = marker)) as [Hid|Hid].
    + left. by exists m.
    + right. by intros (m' & [= <-] & ?).
  - right. by intros (m' & [=] & ?).
Defined.

Lemma scanToolCalls_sound (set : gset string) (calls : list ToolCall) :
  scanToolCalls set calls ≠ "" →
  ∃ tc, tc ∈ calls ∧ eligible set tc ∧ ID tc = scanToolCalls set calls.
Proof.
  induction calls as [|c calls IH]; simpl; [done|].
  case_bool_decide as Hc.
  - intros _. exists c. split; [by left | done].
  - intros Hne. destruct (IH Hne) as (tc & Hin & He & Hid).
    exists tc. split; [by right | done].
Qed.

(** X5: the ID that [getReturnDirectlyToolCallID] returns, when not empty,
    is the ID of a request of the message whose tool is in the direct-return
    set: a request for another tool is never marked.  It returns the empty
    string exactly when no request is for a tool of the set or the first such
    request has an empty ID. *)
Theorem getReturnDirectlyToolCallID_sound (input : Message) (set : gset string) :
  (getReturnDirectlyToolCallID input set ≠ "" →
     ∃ tc, tc ∈ ToolCalls input ∧ eligible set tc
       ∧ ID tc = getReturnDirectlyToolCallID input set)
  ∧ (getReturnDirectlyToolCallID input set = "" ↔
       Forall (λ c, ¬ eligible set c) (ToolCalls input)
       ∨ ∃ pre tc rest, ToolCalls input = pre ++ tc :: rest
           ∧ Forall (λ c, ¬ eligible set c) pre ∧ eligible set tc ∧ ID tc = "").
Proof.
  split.
  - unfold getReturnDirectlyToolCallID. case_bool_decide; [done|].
    apply scanToolCalls_sound.
  - split.
    + intros Hempty.
      destruct (decide (Forall (λ c, ¬ eligible set c) (ToolCalls input))) as [Hall|Hex];
        [by left|right].
      apply not_Forall_Exists in Hex; [|intros c; apply _].
      assert (Hfirst : ∃ pre tc rest, ToolCalls input = pre ++ tc :: rest
                ∧ Forall (λ c, ¬ eligible set c) pre ∧ eligible set tc).
      { clear Hempty. induction (ToolCalls input) as [|c l IH];
          [by apply Exists_nil in Hex|].
        destruct (decide (eligible set c)) as [Hc|Hc].
        - by exists [], c, l.
        - apply Exists_cons in Hex as [Hn|Hex]; [by destruct Hn|].
          destruct (IH Hex) as (pre & tc & rest & -> & Hpre & Htc).
          exists (c :: pre), tc, rest. split; [done|]. split; [by constructor | done]. }
      destruct Hfirst as (pre & tc & rest & Heq & Hpre & Htc).
      exists pre, tc, rest. repeat split; try done.
      by rewrite <- (getReturnDirectlyToolCallID_first set input pre rest tc).
    + intros [Hall|(pre & tc & rest & Heq & Hpre & Htc & Hid)].
      * by apply getReturnDirectlyToolCallID_none.
      * by rewrite (getReturnDirectlyToolCallID_first set input pre rest tc).
Qed.

Lemma directReturn_find_sound (marker : string) (msgs : list MessagePtr) (m : Message) :
  directReturn_find marker msgs = Some m → Some m ∈ msgs ∧ ToolCallID m = marker.
Proof.
  induction msgs as [|p msgs IH]; simpl; [done|].
  destruct p as [m'|].
  - case_bool_decide as Hid.
    + intros [= <-]. split; [by left | done].
    + intros H. destruct (IH H). split; [by right | done].
  - intros H. destruct (IH H). split; [by right | done].
Qed.

Lemma directReturn_find_omit_nil (marker : string) (msgs : list MessagePtr) :
  directReturn_find marker (filter (λ p, p ≠ None) msgs) = directReturn_find marker msgs.
Proof.
  induction msgs as [|p msgs IH]; [done|].
  rewrite filter_cons. destruct p as [m|].
  - rewrite decide_True by done. simpl. by rewrite IH.
  - rewrite decide_False by (by intros H; apply H). simpl. by rewrite IH.
Qed.

(** X6: whatever the marker, empty or not, the direct-return conversion
    returns only a message of the batch whose [ToolCallID] is the marker; it
    fails exactly when no non-nil entry of the batch has that [ToolCallID], and
    then with [ErrNoValue]; nil entries of the batch do not affect the
    result. *)
Theorem directReturn_sound (msgs : list MessagePtr) (st : state) :
  (∀ m, directReturn msgs st = Ok m →
     Some m ∈ msgs ∧ ToolCallID m = ReturnDirectlyToolCallID st)
  ∧ (∀ e, directReturn msgs st = Err e ↔
       e = ErrNoValue ∧ Forall (λ p, ¬ answers (ReturnDirectlyToolCallID st) p) msgs)
  ∧ directReturn (filter (λ p, p ≠ None) msgs) st = directReturn msgs st.
Proof.
  split; [|split].
  - intros m. unfold directReturn.
    destruct (directReturn_find _ msgs) as [m'|] eqn:Hf; [|done].
    intros [= <-]. by apply directReturn_find_sound.
  - intros e. split.
    + unfold directReturn.
      destruct (directReturn_find _ msgs) as [m'|] eqn:Hf; [done|].
      intros [= <-]. split; [done|].
      destruct (decide (Forall (λ p, ¬ answers (ReturnDirectlyToolCallID st) p) msgs))
        as [Hall|Hex]; [done|].
      apply not_Forall_Exists in Hex; [|intros p; apply _].
      assert (Hex' : Exists (answers (ReturnDirectlyToolCallID st)) msgs).
      { eapply Exists_impl; [exact Hex|]. intros p Hp.
        destruct (decide (answers (ReturnDirectlyToolCallID st) p)); [done | by destruct Hp]. }
      destruct (directReturn_find_first _ _ Hex') as (pre & m & rest & -> & Hid & Hpre).
      rewrite directReturn_find_skip in Hf by done. simpl in Hf.
      by rewrite bool_decide_eq_true_2 in Hf.
    + intros [-> Hall]. unfold directReturn.
      rewrite <- (app_nil_r msgs), directReturn_find_skip by done. done.
  - unfold directReturn. by rewrite directReturn_find_omit_nil.
Qed.

(** ** The persona modifier on slices *)

Lemma append_frame (growslice : nat → nat → nat) (s s' : GoSlices.Slice)
    (xs : list MessagePtr) (h h' : GoSlices.Heap) :
  GoSlices.append growslice s xs h = Some (s', h') →
  dom h ⊆ dom h' ∧ ∀ a, a ∈ dom h → a ≠ GoSlices.array s → h' !! a = h !! a.
Proof.
  unfold GoSlices.append. destruct (h !! GoSlices.array s) as [arr|] eqn:Harr; [|done].
  simpl. case_bool_decide.
  - intros [= <- <-]. split; [rewrite dom_insert_L; set_solver|].
    intros a _ Hne. by rewrite lookup_insert_ne.
  - unfold GoSlices.alloc. intros [= <- <-]. split; [rewrite dom_insert_L; set_solver|].
    intros a Hin _. rewrite lookup_insert_ne; [done|].
    intros <-. by apply is_fresh in Hin.
Qed.

Lemma NewPersonaModifierH_framed (growslice : nat → nat → nat) (persona : string) :
  GoSlices.framed (NewPersonaModifierH growslice persona).
Proof.
  intros s h s' h' Hrun a _ Hin.
  unfold NewPersonaModifierH, makeCap, GoSlices.alloc in Hrun.
  set (a0 := fresh (dom h)) in *.
  set (h1 := <[a0 := replicate (GoSlices.len s + 1) None]> h) in *.
  assert (Hne : a ≠ a0) by (intros ->; by apply is_fresh in Hin).
  assert (H1 : h1 !! a = h !! a) by (unfold h1; by rewrite lookup_insert_ne).
  assert (Hin1 : a ∈ dom h1) by (unfold h1; rewrite dom_insert_L; set_solver).
  destruct (GoSlices.append growslice _ [Some (SystemMessage persona)] h1)
    as [[res1 h2]|] eqn:Ha1; simpl in Hrun; [|by injection Hrun as <- <-].
  destruct (append_frame _ _ _ _ _ _ Ha1) as [Hdom2 Hkeep2].
  assert (H2 : h2 !! a = h !! a) by (rewrite Hkeep2; done).
  destruct (GoSlices.read h2 s) as [xs|]; simpl in Hrun; [|by injection Hrun as <- <-].
  destruct (GoSlices.append growslice res1 xs h2) as [[res2 h3]|] eqn:Ha2;
    simpl in Hrun; injection Hrun as <- <-; [|done].
  destruct (append_frame _ _ _ _ _ _ Ha2) as [_ Hkeep3].
  rewrite Hkeep3; [done | by apply Hdom2|].
  (* the array of [res1] is the new array or one allocated after it *)
  unfold GoSlices.append in Ha1. simpl in Ha1. unfold h1 in Ha1.
  rewrite lookup_insert_eq in Ha1. simpl in Ha1.
  rewrite bool_decide_eq_true_2 in Ha1 by lia. by injection Ha1 as <- <-.
Qed.

Lemma NewPersonaModifierH_run (growslice : nat → nat → nat) (persona : string)
    (input : GoSlices.Slice) (h : GoSlices.Heap) (xs : list MessagePtr) :
  GoSlices.valid h input → GoSlices.read h input = Some xs →
  ∃ out h', NewPersonaModifierH growslice persona input h = (out, h')
    ∧ GoSlices.read h' out = Some (NewPersonaModifier persona xs)
    ∧ (GoSlices.array out ∉ dom h)
    ∧ GoSlices.len out = length xs + 1 ∧ GoSlices.cap out = length xs + 1
    ∧ dom h' = {[GoSlices.array out]} ∪ dom h
    ∧ ∀ a, a ∈ dom h → h' !! a = h !! a.
Proof.
  intros (arr & Harr & Hlen & Hle) Hread.
  unfold GoSlices.read in Hread. rewrite Harr in Hread. simpl in Hread.
  injection Hread as <-.
  assert (Hxs : length (take (GoSlices.len input) arr) = GoSlices.len input)
    by (rewrite length_take; lia).
  set (xs := take (GoSlices.len input) arr) in *.
  unfold NewPersonaModifierH, makeCap, GoSlices.alloc.
  set (a0 := fresh (dom h)).
  assert (Hfresh : a0 ∉ dom h) by apply is_fresh.
  assert (Hne : a0 ≠ GoSlices.array input).
  { intros Heq. apply Hfresh. rewrite Heq. apply elem_of_dom. by eexists. }
  unfold GoSlices.append at 2. simpl. rewrite lookup_insert_eq. simpl.
  rewrite bool_decide_eq_true_2 by lia. simpl.
  unfold GoSlices.read at 1. rewrite lookup_insert_ne by done.
  rewrite lookup_insert_ne by done. rewrite Harr. simpl. fold xs.
  unfold GoSlices.append. simpl. rewrite lookup_insert_eq. simpl.
  rewrite bool_decide_eq_true_2 by lia. simpl.
  eexists _, _. split; [reflexivity|]. simpl.
  replace (GoSlices.len input + 1) with (S (GoSlices.len input)) by lia. simpl.
  rewrite !drop_0, drop_ge by (rewrite length_replicate; lia).
  repeat split.
  - unfold GoSlices.read. simpl. rewrite lookup_insert_eq. simpl.
    unfold NewPersonaModifier. simpl. f_equal. f_equal.
    rewrite app_nil_r. apply take_ge. lia.
  - done.
  - lia.
  - lia.
  - rewrite !dom_insert_L. apply set_eq. intros x. rewrite !elem_of_union. tauto.
  - intros a Hin. rewrite !lookup_insert_ne; try done; intros <-; done.
Qed.

(** X7: on a valid input slice [NewPersonaModifier] returns a slice in a
    newly allocated array that holds the system message followed by the
    elements of the input, in order; the capacity [len(input)+1] it asks for is
    exactly what it fills, so it allocates once, never reallocates (the result
    does not depend on the runtime's growth policy) and changes no array that
    existed before, the input's included. *)
Theorem NewPersonaModifierH_spec (growslice : nat → nat → nat) (persona : string)
    (input : GoSlices.Slice) (h : GoSlices.Heap) (xs : list MessagePtr) :
  GoSlices.valid h input → GoSlices.read h input = Some xs →
  ∃ out h', NewPersonaModifierH growslice persona input h = (out, h')
    ∧ GoSlices.read h' out = Some (NewPersonaModifier persona xs)
    ∧ (GoSlices.array out ∉ dom h)
    ∧ GoSlices.len out = length xs + 1 ∧ GoSlices.cap out = length xs + 1
    ∧ dom h' = {[GoSlices.array out]} ∪ dom h
    ∧ ∀ a, a ∈ dom h → h' !! a = h !! a.
Proof. apply NewPersonaModifierH_run. Qed.

Lemma NewPersonaModifierH_spec_witness :
  GoSlices.valid sampleHeap (GoSlices.MessagesH sampleStateH)
  ∧ GoSlices.read sampleHeap (GoSlices.MessagesH sampleStateH) = Some []
  ∧ ∃ out h', NewPersonaModifierH exactGrow "You are an expert in golang."
                (GoSlices.MessagesH sampleStateH) sampleHeap = (out, h')
      ∧ GoSlices.read h' out
        = Some (NewPersonaModifier "You are an expert in golang." [])
      ∧ (GoSlices.array out ∉ dom sampleHeap)
      ∧ GoSlices.len out = length (@nil MessagePtr) + 1
      ∧ GoSlices.cap out = length (@nil MessagePtr) + 1
      ∧ dom h' = {[GoSlices.array out]} ∪ dom sampleHeap
      ∧ ∀ a, a ∈ dom sampleHeap → h' !! a = sampleHeap !! a.
Proof.
  assert (Hvalid : GoSlices.valid sampleHeap (GoSlices.MessagesH sampleStateH)).
  { exists [None; None]. repeat split; simpl; lia. }
  assert (Hread : GoSlices.read sampleHeap (GoSlices.MessagesH sampleStateH) = Some [])
    by reflexivity.
  split; [exact Hvalid|]. split; [exact Hread|].
  exact (NewPersonaModifierH_spec exactGrow "You are an expert in golang."
           (GoSlices.MessagesH sampleStateH) sampleHeap [] Hvalid Hread).
Defined.

(** X8: with [NewPersonaModifier] as the message modifier, the model node's
    pre-handler hands the model the system message followed by the whole
    history, while the history kept in the state is the old history followed
    by the input: the persona is prepended at every turn and never enters the
    history. *)
Theorem persona_stays_out_of_history (growslice : nat → nat → nat) (persona : string)
    (input old : list MessagePtr) (st : GoSlices.stateH) (h : GoSlices.Heap) :
  (∀ c n, n ≤ growslice c n) →
  GoSlices.valid h (GoSlices.MessagesH st) →
  GoSlices.read h (GoSlices.MessagesH st) = Some old →
  ∃ out st' h',
    GoSlices.modelPreHandleH growslice (Some (NewPersonaModifierH growslice persona))
      input st h = Some (out, st', h')
    ∧ GoSlices.read h' out = Some (Some (SystemMessage persona) :: old ++ input)
    ∧ GoSlices.read h' (GoSlices.MessagesH st') = Some (old ++ input)
    ∧ GoSlices.array out ≠ GoSlices.array (GoSlices.MessagesH st').
Proof.
  intros Hgrow Hvalid Hread.
  destruct (GoSlicesFacts.append_spec growslice Hgrow (GoSlices.MessagesH st) input old h
              Hvalid Hread) as (s1 & h1 & Happ & Hv1 & Hr1 & Hlen1 & Hdom1 & Hkeep1).
  destruct (GoSlicesFacts.duplicate_spec s1 (old ++ input) h1 Hv1 Hr1)
    as (dup & h3 & Hcopy & Hdup & Hfresh & Hrd & Hrs & Hin3 & Hsame).
  assert (Hvd : GoSlices.valid h3 dup).
  { unfold GoSlices.read in Hrd.
    destruct (h3 !! GoSlices.array dup) as [arr|] eqn:Harr; [|done].
    exists arr. split; [done|]. subst dup. simpl in *.
    unfold GoSlices.copy in Hcopy. simpl in Hcopy.
    rewrite lookup_insert_eq in Hcopy. simpl in Hcopy.
    destruct Hv1 as (arr1 & Harr1 & Hl1 & Hle1).
    rewrite lookup_insert_ne in Hcopy
      by (intros Heq; apply Hfresh; rewrite Heq; apply elem_of_dom; by eexists).
    rewrite Harr1 in Hcopy. simpl in Hcopy. injection Hcopy as <-.
    rewrite lookup_insert_eq in Harr. injection Harr as <-.
    rewrite Nat.min_id, length_app, length_take, length_drop, length_replicate. lia. }
  destruct (NewPersonaModifierH_run growslice persona dup h3 (old ++ input) Hvd Hrd)
    as (out & h' & Hrun & Hout & Hnew & _ & _ & _ & Hkeep).
  unfold GoSlices.modelPreHandleH. rewrite Happ.
  cbn -[GoSlices.make GoSlices.copy NewPersonaModifierH].
  destruct (GoSlices.make (GoSlices.len s1) h1) as [modifiedInput h2] eqn:Hmake.
  simpl in Hcopy, Hdup. subst dup. rewrite Hcopy.
  cbn -[NewPersonaModifierH]. rewrite Hrun.
  exists out, {| GoSlices.MessagesH := s1;
                 GoSlices.ReturnDirectlyToolCallIDH := GoSlices.ReturnDirectlyToolCallIDH st |}, h'.
  split; [done|]. split; [done|]. simpl. split.
  - unfold GoSlices.read. rewrite (Hkeep _ Hin3). apply Hrs.
  - intros Heq. apply Hnew. by rewrite Heq.
Qed.

Lemma persona_stays_out_of_history_witness :
  (∀ c n, n ≤ exactGrow c n)
  ∧ GoSlices.valid sampleHeap (GoSlices.MessagesH sampleStateH)
  ∧ GoSlices.read sampleHeap (GoSlices.MessagesH sampleStateH) = Some []
  ∧ ∃ out st' h',
      GoSlices.modelPreHandleH exactGrow
        (Some (NewPersonaModifierH exactGrow "You are an expert in golang."))
        userTurn sampleStateH sampleHeap = Some (out, st', h')
      ∧ GoSlices.read h' out
        = Some (Some (SystemMessage "You are an expert in golang.") :: [] ++ userTurn)
      ∧ GoSlices.read h' (GoSlices.MessagesH st') = Some ([] ++ userTurn)
      ∧ GoSlices.array out ≠ GoSlices.array (GoSlices.MessagesH st').
Proof.
  assert (Hgrow : ∀ c n, n ≤ exactGrow c n) by (intros c n; unfold exactGrow; lia).
  assert (Hvalid : GoSlices.valid sampleHeap (GoSlices.MessagesH sampleStateH)).
  { exists [None; None]. repeat split; simpl; lia. }
  assert (Hread : GoSlices.read sampleHeap (GoSlices.MessagesH sampleStateH) = Some [])
    by reflexivity.
  split; [exact Hgrow|]. split; [exact Hvalid|]. split; [exact Hread|].
  exact (persona_stays_out_of_history exactGrow "You are an expert in golang."
           userTurn [] sampleStateH sampleHeap Hgrow Hvalid Hread).
Defined.

(** ** Streaming a request and merging it back *)

Lemma lastNonEmpty_blank (s : string) (l : list string) :
  Forall (λ x, x = "") l → lastNonEmpty (s :: l) = s.
Proof.
  intros Hall. simpl.
  assert (Hl : lastNonEmpty l = "").
  { induction Hall as [|x l -> _ IH]; [done|]. simpl. by rewrite IH. }
  by rewrite Hl.
Qed.

Lemma mergedRequest_streamRequest (k : Z) (r : ToolCall) (pieces : list string) :
  pieces ≠ [] → Index r = Some k →
  String.concat "" pieces = Arguments (Function r) →
  mergedRequest lastNonEmpty k (streamRequest k r pieces) = r.
Proof.
  intros Hne Hk Hargs. destruct pieces as [|p ps]; [done|].
  unfold mergedRequest, streamRequest. rewrite !fmap_cons, <- !list_fmap_compose.
  rewrite !lastNonEmpty_blank
    by (apply Forall_fmap, Forall_forall; intros x _; reflexivity).
  simpl ID. simpl Type_. simpl Name.
  replace ((λ c, Arguments (Function c)) ∘ continuation k) with (@id string)
    by reflexivity.
  rewrite list_fmap_id. cbn [Function Arguments]. rewrite Hargs.
  destruct r as [i id ty [n a]]. simpl in *. by rewrite Hk.
Qed.

Lemma last_singleton_of (ks : list Z) (k : Z) :
  NoDup ks → k ∈ ks → (∀ k', k' ∈ ks → k' = k) → ks = [k].
Proof.
  intros Hnd Hin Hall. destruct ks as [|k1 ks]; [by apply elem_of_nil in Hin|].
  assert (Hk1 : k1 = k) by (apply Hall; by left). subst k1.
  destruct ks as [|k2 ks]; [done|]. exfalso.
  assert (Hk2 : k2 = k) by (apply Hall; right; by left). subst k2.
  apply NoDup_cons in Hnd as [Hnin _]. apply Hnin. by left.
Qed.

Lemma fragmentsOf_elem (k : Z) (chunks : list ToolCall) :
  fragmentsOf k chunks ≠ [] → ∃ c, c ∈ chunks ∧ Index c = Some k.
Proof.
  intros Hne. destruct (fragmentsOf k chunks) as [|c frs] eqn:Hfr; [done|].
  exists c.
  assert (Hin : c ∈ fragmentsOf k chunks) by (rewrite Hfr; by left).
  apply list_elem_of_filter in Hin as [Hidx Hin]. by split.
Qed.

(** X9: a request streamed in pieces under an index, in any interleaving
    with chunks of other indices or without index, is merged back with its
    identifier, type, name and whole arguments: when the fragments of index
    [k] are those of the request [r] with its arguments cut into pieces, the
    merged list has an entry that is [r] in all but [Index]; and when no
    chunk carries another index, that entry is [r] itself and is the only
    one with index [k]. *)
Theorem concatToolCalls_round_trip (chunks : list ToolCall) (k : Z) (r : ToolCall)
    (pieces : list string) :
  fragmentsOf k chunks = streamRequest k r pieces →
  pieces ≠ [] → Index r = Some k →
  String.concat "" pieces = Arguments (Function r) →
  ∃ merged, concatToolCalls chunks = Some merged
    ∧ (∃ tc, tc ∈ merged ∧ sameRequest tc r)
    ∧ ((∀ c, c ∈ chunks → Index c = None ∨ Index c = Some k) →
       r ∈ merged ∧ ∀ r', r' ∈ merged → Index r' = Some k → r' = r).
Proof.
  intros Hfr Hne Hk Hargs.
  destruct (concatToolCalls_groups chunks) as (ks & Hrun & Hnd & Hks).
  eexists. split; [exact Hrun|].
  assert (Hr : mergedRequest lastNonEmpty k (fragmentsOf k chunks) = r)
    by (rewrite Hfr; by apply mergedRequest_streamRequest).
  assert (Hin : k ∈ ks).
  { apply Hks. rewrite Hfr. by destruct pieces. }
  split.
  - exists (setIndex (mergedRequest lastNonEmpty k (fragmentsOf k chunks)) (last ks)).
    split.
    + apply elem_of_app. right. apply list_elem_of_fmap. by exists k.
    + rewrite Hr. by repeat split.
  - intros Hone.
    assert (Hks1 : ks = [k]).
    { apply last_singleton_of; try done. intros k' Hk'.
      apply Hks, fragmentsOf_elem in Hk' as (c & Hc & Hidx).
      destruct (Hone c Hc) as [Hn|Hs]; congruence. }
    rewrite Hks1. cbn [last fmap list_fmap]. rewrite Hr.
    assert (Hset : setIndex r (Some k) = r).
    { destruct r as [i id ty fn]. simpl in Hk. by subst i. }
    rewrite Hset. split.
    + apply elem_of_app. right. by left.
    + intros r' Hin' Hk'. apply elem_of_app in Hin' as [Hu|Hg].
      * unfold unindexed in Hu. apply list_elem_of_filter in Hu as [Hnone _].
        by rewrite Hnone in Hk'.
      * by apply list_elem_of_singleton in Hg.
Qed.

Lemma concatToolCalls_round_trip_witness :
  fragmentsOf 1 (streamRequest 1 weatherCall ["{city:"; "Par"; "is}"])
    = streamRequest 1 weatherCall ["{city:"; "Par"; "is}"]
  ∧ ∃ merged, concatToolCalls (streamRequest 1 weatherCall ["{city:"; "Par"; "is}"])
              = Some merged
      ∧ (∃ tc, tc ∈ merged ∧ sameRequest tc weatherCall)
      ∧ ((∀ c, c ∈ streamRequest 1 weatherCall ["{city:"; "Par"; "is}"] →
            Index c = None ∨ Index c = Some 1%Z) →
         weatherCall ∈ merged
         ∧ ∀ r', r' ∈ merged → Index r' = Some 1%Z → r' = weatherCall).
Proof.
  assert (Hfr : fragmentsOf 1 (streamRequest 1 weatherCall ["{city:"; "Par"; "is}"])
                = streamRequest 1 weatherCall ["{city:"; "Par"; "is}"]) by reflexivity.
  split; [exact Hfr|].
  exact (concatToolCalls_round_trip _ 1%Z weatherCall ["{city:"; "Par"; "is}"]
           Hfr ltac:(discriminate) eq_refl eq_refl).
Defined.

(** ** The index of the merged entries *)

(** X10: the entries [concatToolCalls] builds for the index groups, one per
    index that occurs, all show the same [Index], that of the group the loop
    took last: each holds the address of the loop's one range variable.  With
    two indices among the chunks, two merged entries show the same index. *)
Theorem concatToolCalls_shared_index (chunks : list ToolCall) :
  (∃ ks entries,
     concatToolCalls chunks = Some (unindexed chunks ++ entries)
     ∧ length entries = length ks
     ∧ NoDup ks
     ∧ (∀ k, k ∈ ks ↔ fragmentsOf k chunks ≠ [])
     ∧ (∀ tc, tc ∈ entries → Index tc = last ks ∧ ∃ kl, last ks = Some kl ∧ kl ∈ ks))
  ∧ ∃ merged a b i,
      concatToolCalls [sampleCall "a" "search"; setIndex chunkA (Some 1%Z); chunkB]
        = Some merged
      ∧ merged ≡ₚ [sampleCall "a" "search"; a; b]
      ∧ ID a = "call_a" ∧ ID b = "call_b"
      ∧ Index a = Some i ∧ Index b = Some i.
Proof.
  split.
  - destruct (concatToolCalls_groups chunks) as (ks & Hrun & Hnd & Hks).
    eexists ks, _. split; [exact Hrun|]. split; [by rewrite length_fmap|].
    split; [done|]. split; [done|].
    intros tc Hin. apply list_elem_of_fmap in Hin as (k & -> & Hk).
    split; [done|]. destruct (last ks) as [kl|] eqn:Hl.
    + exists kl. split; [done|]. by apply last_Some_elem_of.
    + apply last_None in Hl. subst ks. by apply elem_of_nil in Hk.
  - destruct (concatToolCalls_groups
                [sampleCall "a" "search"; setIndex chunkA (Some 1%Z); chunkB])
      as (ks & Hrun & Hnd & Hks).
    assert (H0 : (0 ∈ ks)%Z) by (by apply Hks).
    assert (H1 : (1 ∈ ks)%Z) by (by apply Hks).
    assert (Hperm : ks ≡ₚ [1; 0]%Z).
    { apply NoDup_Permutation; [done| |].
      - repeat constructor; [|by intros H%elem_of_nil].
        intros H%list_elem_of_singleton. discriminate H.
      - intros k. split.
        + intros Hk. apply Hks, fragmentsOf_elem in Hk as (c & Hc & Hidx).
          repeat (apply elem_of_cons in Hc as [-> | Hc]);
            [discriminate Hidx| | |by apply elem_of_nil in Hc];
            injection Hidx as <-; [by left | right; by left].
        + intros Hk. repeat (apply elem_of_cons in Hk as [-> | Hk]); try done.
          by apply elem_of_nil in Hk. }
    destruct (last ks) as [kl|] eqn:Hl;
      [|apply last_None in Hl; subst ks; by apply elem_of_nil in H0].
    eexists _,
      (setIndex (mergedRequest lastNonEmpty 1
                   (fragmentsOf 1 [sampleCall "a" "search"; setIndex chunkA (Some 1%Z); chunkB]))
         (Some kl)),
      (setIndex (mergedRequest lastNonEmpty 0
                   (fragmentsOf 0 [sampleCall "a" "search"; setIndex chunkA (Some 1%Z); chunkB]))
         (Some kl)), kl.
    split; [exact Hrun|]. split; [|by repeat split].
    cbn [unindexed filter list_filter]. 
    change (unindexed [sampleCall "a" "search"; setIndex chunkA (Some 1%Z); chunkB])
      with [sampleCall "a" "search"].
    cbn [app]. constructor. by rewrite Hperm.
Qed.

(** ** The wiring of the graph *)

Lemma buildGraph_plain (config : AgentConfig) (chatModel : ChatModel) (toolsNode : ToolsNode) :
  ToolReturnDirectly config = ∅ →
  buildGraph config chatModel toolsNode
  = {| nodes := [(nodeKeyModel, chatModelNode chatModel (messageModifier config));
                 (nodeKeyTools, toolsNodeImpl toolsNode (ToolReturnDirectly config))];
       edges := [(START, nodeKeyModel); (nodeKeyTools, nodeKeyModel)];
       branches := [(nodeKeyModel, modelBranch (toolCallChecker config))] |}.
Proof.
  intros Hset. unfold buildGraph. rewrite Hset, size_empty.
  by rewrite bool_decide_eq_false_2 by lia.
Qed.

Lemma buildGraph_configured (config : AgentConfig) (chatModel : ChatModel)
    (toolsNode : ToolsNode) :
  ToolReturnDirectly config ≠ ∅ →
  buildGraph config chatModel toolsNode
  = {| nodes := [(nodeKeyModel, chatModelNode chatModel (messageModifier config));
                 (nodeKeyTools, toolsNodeImpl toolsNode (ToolReturnDirectly config));
                 (nodeKeyDirectReturn, directReturnNode)];
       edges := [(START, nodeKeyModel); (nodeKeyDirectReturn, END)];
       branches := [(nodeKeyModel, modelBranch (toolCallChecker config));
                    (nodeKeyTools, toolsBranch)] |}.
Proof.
  intros Hset. unfold buildGraph. by rewrite configured_size.
Qed.

Ltac list_cases H :=
  apply list_elem_of_In in H; simpl in H;
  repeat (destruct H as [H|H]); try (exfalso; exact H).
Ltac list_mem := apply list_elem_of_In; simpl; tauto.
Ltac routed := first [left; reflexivity | right; list_mem].

Lemma modelBranch_target (checker : StreamReader → result error bool) (v : Val)
    (st : state) (next : string) :
  condition (modelBranch checker) v st = Ok next → next ∈ endNodes (modelBranch checker).
Proof.
  simpl. destruct v as [|sr|]; try done. unfold modelPostBranchCondition.
  destruct (checker sr) as [[|]|]; intros [= <-]; list_mem.
Qed.

Lemma toolsBranch_target (v : Val) (st : state) (next : string) :
  condition toolsBranch v st = Ok next → next ∈ endNodes toolsBranch.
Proof.
  simpl. unfold toolsPostBranchCondition. case_bool_decide; intros [= <-]; list_mem.
Qed.

(** X11: the graph [NewAgent] assembles is closed, with or without direct
    return: its stage keys are distinct; every edge and every end node of a
    branch leads to a stage of the graph or to [END]; every edge and branch
    starts at a stage of the graph or at [START]; every stage has either one
    edge or one branch out of it, never both and never none; and a branch
    condition only ever returns one of the end nodes declared for it. *)
Theorem graph_is_closed (config : AgentConfig) (chatModel : ChatModel)
    (toolsNode : ToolsNode) :
  NoDup (stageKeys (buildGraph config chatModel toolsNode))
  ∧ (∀ a b, (a, b) ∈ edges (buildGraph config chatModel toolsNode) →
       (a = START ∨ a ∈ stageKeys (buildGraph config chatModel toolsNode))
       ∧ routable (buildGraph config chatModel toolsNode) b)
  ∧ (∀ a br, (a, br) ∈ branches (buildGraph config chatModel toolsNode) →
       a ∈ stageKeys (buildGraph config chatModel toolsNode)
       ∧ (∀ n, n ∈ endNodes br → routable (buildGraph config chatModel toolsNode) n)
       ∧ ∀ v st next, condition br v st = Ok next → next ∈ endNodes br)
  ∧ (∀ key, key ∈ stageKeys (buildGraph config chatModel toolsNode) →
       (is_Some (assoc key (edges (buildGraph config chatModel toolsNode)))
        ∧ assoc key (branches (buildGraph config chatModel toolsNode)) = None)
       ∨ (assoc key (edges (buildGraph config chatModel toolsNode)) = None
          ∧ is_Some (assoc key (branches (buildGraph config chatModel toolsNode))))).
Proof.
  destruct (decide (ToolReturnDirectly config = ∅)) as [Hset|Hset].
  - rewrite buildGraph_plain by done. unfold stageKeys, routable. simpl.
    split; [|split; [|split]].
    + compute_done.
    + intros a b H. list_cases H; injection H as <- <-; split; routed.
    + intros a br H. list_cases H. injection H as <- <-.
      split; [list_mem|]. split.
      * intros n Hn. simpl in Hn. list_cases Hn; subst; routed.
      * apply modelBranch_target.
    + intros key H. list_cases H; subst.
      * right. by split.
      * left. by split.
  - rewrite buildGraph_configured by done. unfold stageKeys, routable. simpl.
    split; [|split; [|split]].
    + compute_done.
    + intros a b H. list_cases H; injection H as <- <-; split; routed.
    + intros a br H. list_cases H; injection H as <- <-.
      * split; [list_mem|]. split.
        -- intros n Hn. simpl in Hn. list_cases Hn; subst; routed.
        -- apply modelBranch_target.
      * split; [list_mem|]. split.
        -- intros n Hn. simpl in Hn. list_cases Hn; subst; routed.
        -- apply toolsBranch_target.
    + intros key H. list_cases H; subst.
      * right. by split.
      * right. by split.
      * left. by split.
Qed.

(** ** What the stages do to the state *)

(** X12: every stage of the graph only appends to the history: the model
    stage appends its input, the tools stage appends the assistant message it
    received, the direct-return stage leaves the state as it is; and the
    marker is written by the tools stage alone. *)
Theorem stages_append_only (config : AgentConfig) (chatModel : ChatModel)
    (toolsNode : ToolsNode) (key : string) (n : NodeImpl state)
    (step : nat) (v out : Val) (st st' : state) :
  (key, n) ∈ nodes (buildGraph config chatModel toolsNode) →
  n step v st = Ok (out, st') →
  Messages st `prefix_of` Messages st'
  ∧ (key = nodeKeyModel →
       ∃ input, v = VMsgs input ∧ Messages st' = Messages st ++ input)
  ∧ (key = nodeKeyTools →
       ∃ sr am, v = VStream sr ∧ concatStream sr = Ok am
         ∧ Messages st' = Messages st ++ [Some am])
  ∧ (key = nodeKeyDirectReturn → st' = st)
  ∧ (key ≠ nodeKeyTools → ReturnDirectlyToolCallID st' = ReturnDirectlyToolCallID st).
Proof.
  intros Hin Hrun.
  assert (Hcases : (key = nodeKeyModel ∧ n = chatModelNode chatModel (messageModifier config))
            ∨ (key = nodeKeyTools ∧ n = toolsNodeImpl toolsNode (ToolReturnDirectly config))
            ∨ (key = nodeKeyDirectReturn ∧ n = directReturnNode)).
  { destruct (decide (ToolReturnDirectly config = ∅)) as [Hset|Hset].
    - rewrite buildGraph_plain in Hin by done. simpl in Hin.
      list_cases Hin; injection Hin as <- <-; auto.
    - rewrite buildGraph_configured in Hin by done. simpl in Hin.
      list_cases Hin; injection Hin as <- <-; auto. }
  destruct Hcases as [[-> ->]|[[-> ->]|[-> ->]]].
  - unfold chatModelNode in Hrun. destruct v as [input| |]; try done.
    unfold modelPreHandle in Hrun.
    assert (Hst : st' = {| Messages := Messages st ++ input;
                           ReturnDirectlyToolCallID := ReturnDirectlyToolCallID st |}).
    { destruct (messageModifier config) as [f|];
        match type of Hrun with context [chatModel step ?msgs] =>
          destruct (chatModel step msgs) end; simpl in Hrun; try done;
        by injection Hrun as <- <-. }
    subst st'. simpl. repeat split; try done.
    + by apply prefix_app_r.
    + intros _. by exists input.
  - unfold toolsNodeImpl in Hrun. destruct v as [|sr|]; try done.
    destruct (concatStream sr) as [am|] eqn:Hc; simpl in Hrun; [|done].
    destruct (toolsNode step (Some am)) as [batch|]; simpl in Hrun; [|done].
    injection Hrun as <- <-. simpl. repeat split; try done.
    + by apply prefix_app_r.
    + intros _. by exists sr, am.
  - unfold directReturnNode in Hrun. destruct v as [msgs| |]; try done.
    rewrite directReturnStream_run in Hrun. cbn [mbind result_bind] in Hrun.
    destruct (Chunk <$> firstAnswers [msgs] st) as [|[m|err] [|item sr]];
      injection Hrun as <- <-; repeat split; try done.
Qed.

Lemma stages_append_only_witness :
  (nodeKeyTools, toolsNodeImpl toolsAnswerAll (ToolReturnDirectly (directConfig 0)))
    ∈ nodes (buildGraph (directConfig 0) (modelCallsOnce searchCallC1) toolsAnswerAll)
  ∧ Messages oneMessageState
      `prefix_of` [Some callFragment; Some (assistantMsg "" [searchCallC1])].
Proof.
  assert (Hin : (nodeKeyTools,
                 toolsNodeImpl toolsAnswerAll (ToolReturnDirectly (directConfig 0)))
    ∈ nodes (buildGraph (directConfig 0) (modelCallsOnce searchCallC1) toolsAnswerAll)).
  { rewrite buildGraph_configured by (simpl; set_solver). simpl. list_mem. }
  split; [exact Hin|].
  exact (proj1 (stages_append_only (directConfig 0) (modelCallsOnce searchCallC1)
                  toolsAnswerAll nodeKeyTools _ 1 (VStream (requestTurn searchCallC1))
                  (VMsgs (answerBatch searchCallC1)) oneMessageState
                  {| Messages := [Some callFragment; Some (assistantMsg "" [searchCallC1])];
                     ReturnDirectlyToolCallID := "c1" |} Hin eq_refl)).
Defined.

(** X13: a non-nil call of the tools pre-handler followed by a nil call, as
    on the resume of an interrupted run, hands out the very message the first
    call recorded and leaves history and marker as the first call left
    them. *)
Theorem toolsNodePreHandle_resume (set : gset string) (input : Message) (st st' : state)
    (msg : MessagePtr) :
  toolsNodePreHandle set (Some input) st = Some (msg, st') →
  msg = Some input ∧ toolsNodePreHandle set None st' = Some (Some input, st').
Proof.
  simpl. intros [= <- <-]. split; [done|].
  unfold toolsNodePreHandle. simpl. rewrite length_app. simpl.
  replace (length (Messages st) + 1) with (S (length (Messages st))) by lia.
  by rewrite list_lookup_middle.
Qed.

Lemma toolsNodePreHandle_resume_witness :
  toolsNodePreHandle {["search"]} (Some turnTwoCalls) emptyState
    = Some (Some turnTwoCalls,
            {| Messages := [Some turnTwoCalls]; ReturnDirectlyToolCallID := "c1" |})
  ∧ toolsNodePreHandle {["search"]} None
      {| Messages := [Some turnTwoCalls]; ReturnDirectlyToolCallID := "c1" |}
    = Some (Some turnTwoCalls,
            {| Messages := [Some turnTwoCalls]; ReturnDirectlyToolCallID := "c1" |}).
Proof.
  assert (H : toolsNodePreHandle {["search"]} (Some turnTwoCalls) emptyState
    = Some (Some turnTwoCalls,
            {| Messages := [Some turnTwoCalls]; ReturnDirectlyToolCallID := "c1" |}))
    by (vm_compute; reflexivity).
  split; [exact H|].
  exact (proj2 (toolsNodePreHandle_resume {["search"]} turnTwoCalls emptyState _ _ H)).
Defined.

(** ** The registration, when it succeeds or has been tried *)

(** X14: whatever the first [NewAgent] call of a process returns, the
    process does not change afterwards and every later call returns what the
    construction after the registration returns; when the first registration
    succeeds, the state type is registered from then on, and the first call
    already returns the constructed agent or the construction's own error. *)
Theorem registration_settles (ext : externals) (config : AgentConfig) (p : process) :
  (∀ configs,
     NewAgents ext configs (snd (NewAgent ext config p))
     = (newAgentBuild ext <$> configs, snd (NewAgent ext config p)))
  ∧ (registerStateOnce p = false →
     RegisterSerializableType ext "_eino_react_state" (registeredTypes p) = None →
     fst (NewAgent ext config p) = newAgentBuild ext config
     ∧ "_eino_react_state" ∈ registeredTypes (snd (NewAgent ext config p))
     ∧ registerCalls (snd (NewAgent ext config p)) = S (registerCalls p)).
Proof.
  split.
  - intros configs. apply NewAgents_done. apply NewAgent_sets_done.
  - intros Hd Hr. unfold NewAgent, registerState. rewrite Hd, Hr. simpl.
    repeat split. set_solver.
Qed.

Lemma registration_settles_witness :
  registerStateOnce freshProcess = false
  ∧ RegisterSerializableType workingExternals "_eino_react_state"
      (registeredTypes freshProcess) = None
  ∧ fst (NewAgent workingExternals plainConfig freshProcess)
    = newAgentBuild workingExternals plainConfig
  ∧ "_eino_react_state"
      ∈ registeredTypes (snd (NewAgent workingExternals plainConfig freshProcess))
  ∧ registerCalls (snd (NewAgent workingExternals plainConfig freshProcess))
    = S (registerCalls freshProcess).
Proof.
  split; [reflexivity|]. split; [reflexivity|].
  exact (proj2 (registration_settles workingExternals plainConfig freshProcess)
           eq_refl eq_refl).
Defined.
